(** * The schemas store of the Mathesar UI

    A shallow embedding of [mathesar_ui/src/stores/schemas.ts]: the
    writable store holding the schemas of the current database, the
    asynchronous operations that fill and edit it, and the derived
    store that reloads it when the current database changes.

    Asynchronous functions are written in a small monad [Proc] whose
    programs read and write the module's variables, issue remote
    calls, and suspend at every [await].  An event loop resumes the
    suspended continuations when the replies of the server arrive. *)

From stdpp Require Import base decidable numbers option list gmap strings.

(** ** Data model *)

(** Modelled from the spec: the [Database] class of [models/Database]
    is imported by the store, not defined by it.  The store reads
    nothing but the [id] of a database. *)
Module Database.
Record t : Type := make { id : Z; name : string }.
End Database.

(** Modelled from the spec: [RawSchema] of [api/rpc/schemas], the
    record the remote calls answer with.  [oid] is the identifier the
    server assigned; the add call sends [name] and [description]. *)
Module RawSchema.
Record t : Type := make { oid : Z; name : string; description : option string }.
End RawSchema.

(** Modelled from the spec: the [Schema] class of [models/Schema]: an
    identifier, the owning database and the descriptive fields. *)
Module Schema.
Record t : Type := make {
  oid : Z;
  database : Database.t;
  name : string;
  description : option string
}.

(** [new Schema({ database, rawSchema })] *)
Definition new (database : Database.t) (rawSchema : RawSchema.t) : t :=
  {| oid := RawSchema.oid rawSchema;
     database := database;
     name := RawSchema.name rawSchema;
     description := RawSchema.description rawSchema |}.
End Schema.

(** [RequestStatus] of [api/rest/utils/requestUtils]. *)
Inductive RequestStatus : Type :=
  | success
  | processing
  | failure (errors : list string).

(** [interface SchemaStoreData]; an absent [databaseId] is [None].
    The [Map] is a finite map from oids; the order in which a JS [Map]
    lists its entries is not kept. *)
Record SchemaStoreData : Type := {
  databaseId : option Z;
  requestStatus : RequestStatus;
  data : gmap Z Schema.t
}.

(** A promise returned by [run()] is named by the rank of its call. *)
Definition handle : Type := nat.

(** The remote calls this module issues. *)
Inductive RemoteCall : Type :=
  | api_schemas_list (database_id : Z)
  | api_schemas_add (database_id : Z) (name : string) (description : option string)
  | schema_delete (schema : Schema.t).

(** The variables a program of this module reads and writes. *)
Record Mem : Type := {
  schemasStore : SchemaStoreData;       (* [const schemasStore = writable(...)] *)
  request : option handle;              (* [let request: CancellablePromise] *)
  preload : bool;                       (* [let preload = true] *)
  currentDatabase : option Database.t;  (* [databasesStore.currentDatabase] *)
  cancelled : gset handle;              (* promises on which [cancel()] was called *)
  issued : list RemoteCall              (* remote calls made so far, oldest first *)
}.

Definition with_schemasStore (s : SchemaStoreData) (m : Mem) : Mem :=
  {| schemasStore := s; request := request m; preload := preload m;
     currentDatabase := currentDatabase m; cancelled := cancelled m;
     issued := issued m |}.

Definition with_request (r : option handle) (m : Mem) : Mem :=
  {| schemasStore := schemasStore m; request := r; preload := preload m;
     currentDatabase := currentDatabase m; cancelled := cancelled m;
     issued := issued m |}.

Definition with_preload (b : bool) (m : Mem) : Mem :=
  {| schemasStore := schemasStore m; request := request m; preload := b;
     currentDatabase := currentDatabase m; cancelled := cancelled m;
     issued := issued m |}.

Definition with_currentDatabase (d : option Database.t) (m : Mem) : Mem :=
  {| schemasStore := schemasStore m; request := request m; preload := preload m;
     currentDatabase := d; cancelled := cancelled m; issued := issued m |}.

Definition with_cancelled (c : gset handle) (m : Mem) : Mem :=
  {| schemasStore := schemasStore m; request := request m; preload := preload m;
     currentDatabase := currentDatabase m; cancelled := c; issued := issued m |}.

Definition with_issued (l : list RemoteCall) (m : Mem) : Mem :=
  {| schemasStore := schemasStore m; request := request m; preload := preload m;
     currentDatabase := currentDatabase m; cancelled := cancelled m;
     issued := l |}.

(** ** Sample values *)

Definition library : Database.t := Database.make 1 "library".
Definition movies : Database.t := Database.make 2 "movies".

Definition public : RawSchema.t := RawSchema.make 2200 "public" None.
Definition archive : RawSchema.t := RawSchema.make 2201 "archive" (Some "old loans").
(** The store on [library], holding its schema [public]. *)
Definition library_store : SchemaStoreData :=
  {| databaseId := Some 1%Z;
     requestStatus := success;
     data := {[ 2200%Z := Schema.new library public ]} |}.

(** Variables around a store [s] while [cur] is selected: no request
    made yet, the preloaded schemas used up. *)
Definition mem_around (s : SchemaStoreData) (cur : option Database.t) : Mem :=
  {| schemasStore := s; request := None; preload := false;
     currentDatabase := cur; cancelled := ∅; issued := [] |}.

Section Schemas.

(** Thrown values, and [getErrorMessage] of [utils/errors], are the
    caller's; so is the page's preloaded [commonData], whose
    [current_database] is a number or [null]. *)
Context {Err : Type}.
Variable getErrorMessage : Err → string.
Variable commonData_current_database : option Z.
Variable commonData_schemas : list RawSchema.t.

(** ** Programs *)

(** What an [await] receives: the rejection or the value. *)
Definition Reply (A : Type) : Type := Err + A.

Inductive Proc (A : Type) : Type :=
  | Ret (a : A)                                      (* return *)
  | Throw (err : Err)                                (* throw *)
  | Get (k : Mem → Proc A)                           (* read the variables *)
  | Put (m : Mem) (k : Proc A)                       (* write the variables *)
  | Run (c : RemoteCall) (k : handle → Proc A)       (* [.run()], [schema.delete()] *)
  | AwaitList (h : handle) (k : Reply (list RawSchema.t) → Proc A)
  | AwaitAdd (h : handle) (k : Reply RawSchema.t → Proc A)
  | AwaitDelete (h : handle) (k : Reply unit → Proc A).

Arguments Ret {A} a.
Arguments Throw {A} err.
Arguments Get {A} k.
Arguments Put {A} m k.
Arguments Run {A} c k.
Arguments AwaitList {A} h k.
Arguments AwaitAdd {A} h k.
Arguments AwaitDelete {A} h k.

Fixpoint bind {A B : Type} (p : Proc A) (f : A → Proc B) : Proc B :=
  match p with
  | Ret a => f a
  | Throw err => Throw err
  | Get k => Get (λ m, bind (k m) f)
  | Put m k => Put m (bind k f)
  | Run c k => Run c (λ h, bind (k h) f)
  | AwaitList h k => AwaitList h (λ r, bind (k r) f)
  | AwaitAdd h k => AwaitAdd h (λ r, bind (k r) f)
  | AwaitDelete h k => AwaitDelete h (λ r, bind (k r) f)
  end.

(** [try { p } catch (err) { handler err }] *)
Fixpoint try_catch {A : Type} (p : Proc A) (handler : Err → Proc A) : Proc A :=
  match p with
  | Ret a => Ret a
  | Throw err => handler err
  | Get k => Get (λ m, try_catch (k m) handler)
  | Put m k => Put m (try_catch k handler)
  | Run c k => Run c (λ h, try_catch (k h) handler)
  | AwaitList h k => AwaitList h (λ r, try_catch (k r) handler)
  | AwaitAdd h k => AwaitAdd h (λ r, try_catch (k r) handler)
  | AwaitDelete h k => AwaitDelete h (λ r, try_catch (k r) handler)
  end.

#[local] Instance Proc_ret : MRet Proc := @Ret.
#[local] Instance Proc_bind : MBind Proc := λ A B f p, bind p f.

(** An awaited promise yields its value or throws its rejection. *)
Definition settle {A : Type} (r : Reply A) : Proc A :=
  match r with
  | inl err => Throw err
  | inr a => Ret a
  end.

Definition modify (f : Mem → Mem) : Proc unit :=
  Get (λ m, Put (f m) (Ret ())).

(** [get(schemasStore)], [schemasStore.set(s)], [schemasStore.update(f)] *)
Definition get_schemasStore : Proc SchemaStoreData :=
  Get (λ m, Ret (schemasStore m)).
Definition set_schemasStore (s : SchemaStoreData) : Proc unit :=
  modify (with_schemasStore s).
Definition update_schemasStore (f : SchemaStoreData → SchemaStoreData) : Proc unit :=
  modify (λ m, with_schemasStore (f (schemasStore m)) m).

(** [get(databasesStore.currentDatabase)] *)
Definition get_currentDatabase : Proc (option Database.t) :=
  Get (λ m, Ret (currentDatabase m)).

(** Modelled from the spec: [CancellablePromise] of the component
    library.  [cancel()] marks the promise; a marked promise is never
    settled, so whatever awaits it stays suspended (see [step]). *)
Definition cancel (h : handle) : Proc unit :=
  modify (λ m, with_cancelled ({[h]} ∪ cancelled m) m).

(** ** The store's functions *)

Definition makeEmptySchemasData : SchemaStoreData :=
  {| databaseId := None; requestStatus := success; data := ∅ |}.

Definition setSchemasInStore (database : Database.t)
    (rawSchemas : list RawSchema.t) : Proc unit :=
  let schemasMap :=
    foldl (λ schemasMap rawSchema,
             <[RawSchema.oid rawSchema := Schema.new database rawSchema]> schemasMap)
          (∅ : gmap Z Schema.t) rawSchemas in
  set_schemasStore
    {| databaseId := Some (Database.id database);
       requestStatus := success;
       data := schemasMap |}.

(** [value.data?.set(schema.oid, schema)] changes the map of the
    store's value in place, and [new Map(value.data)] copies it into
    the value returned: the store's new map is its old map with the
    entry set.  Likewise for [delete] below. *)
Definition updateSchemaInStore (database : Database.t) (schema : Schema.t) : Proc unit :=
  s ← get_schemasStore;
  if decide (databaseId s = Some (Database.id database)) then
    update_schemasStore (λ value,
      {| databaseId := databaseId value;
         requestStatus := requestStatus value;
         data := <[Schema.oid schema := schema]> (data value) |})
  else mret ().

Definition removeSchemaInStore (database : Database.t) (schema : Schema.t) : Proc unit :=
  s ← get_schemasStore;
  if decide (databaseId s = Some (Database.id database)) then
    update_schemasStore (λ value,
      {| databaseId := databaseId value;
         requestStatus := requestStatus value;
         data := delete (Schema.oid schema) (data value) |})
  else mret ().

Definition fetchSchemasForCurrentDatabase : Proc unit :=
  req ← Get (λ m, Ret (request m));
  match req with Some h => cancel h | None => mret () end;;
  cur ← get_currentDatabase;
  match cur with
  | None => set_schemasStore makeEmptySchemasData
  | Some d =>
    update_schemasStore (λ s,
      if decide (databaseId s = Some (Database.id d)) then
        {| databaseId := databaseId s;
           requestStatus := processing;
           data := data s |}
      else
        {| databaseId := Some (Database.id d);
           requestStatus := processing;
           data := ∅ |});;
    try_catch
      (h ← Run (api_schemas_list (Database.id d)) Ret;
       modify (with_request (Some h));;
       rawSchemas ← AwaitList h settle;
       setSchemasInStore d rawSchemas)
      (λ err,
       update_schemasStore (λ s,
         if decide (databaseId s = Some (Database.id d)) then
           {| databaseId := databaseId s;
              requestStatus := failure [getErrorMessage err];
              data := data s |}
         else
           {| databaseId := Some (Database.id d);
              requestStatus := failure [getErrorMessage err];
              data := ∅ |}))
  end.

(** [props] of [createSchema] *)
Record SchemaProps : Type := { props_name : string; props_description : option string }.

Definition createSchema (database : Database.t) (props : SchemaProps) : Proc unit :=
  h ← Run (api_schemas_add (Database.id database) (props_name props)
             (props_description props)) Ret;
  rawSchema ← AwaitAdd h settle;
  updateSchemaInStore database (Schema.new database rawSchema).

(** Modelled from the spec: [schema.delete()] is the remote delete
    call on that schema, answered by an acknowledgement. *)
Definition deleteSchema (schema : Schema.t) : Proc unit :=
  h ← Run (schema_delete schema) Ret;
  _ ← AwaitDelete h settle;
  removeSchemaInStore (Schema.database schema) schema.

(** ** Running programs *)

(** A program suspended at an [await], with what it does next. *)
Inductive Wait (A : Type) : Type :=
  | WList (h : handle) (k : Reply (list RawSchema.t) → Proc A)
  | WAdd (h : handle) (k : Reply RawSchema.t → Proc A)
  | WDelete (h : handle) (k : Reply unit → Proc A).

Arguments WList {A} h k.
Arguments WAdd {A} h k.
Arguments WDelete {A} h k.

Inductive Outcome (A : Type) : Type :=
  | Returned (a : A)
  | Raised (err : Err)
  | Suspended (t : Wait A).

Arguments Returned {A} a.
Arguments Raised {A} err.
Arguments Suspended {A} t.

(** Run a program up to its return, its uncaught throw or its next
    [await].  A remote call gets the next free handle. *)
Fixpoint run_sync {A : Type} (p : Proc A) (m : Mem) : Mem * Outcome A :=
  match p with
  | Ret a => (m, Returned a)
  | Throw err => (m, Raised err)
  | Get k => run_sync (k m) m
  | Put m' k => run_sync k m'
  | Run c k => run_sync (k (length (issued m))) (with_issued (issued m ++ [c]) m)
  | AwaitList h k => (m, Suspended (WList h k))
  | AwaitAdd h k => (m, Suspended (WAdd h k))
  | AwaitDelete h k => (m, Suspended (WDelete h k))
  end.

(** ** The event loop *)

Definition Task : Type := Wait unit.

Record World : Type := { mem : Mem; tasks : list Task }.

(** Call a function of the module without awaiting its promise: it
    runs at once up to its first [await]; the rest waits in [tasks]. *)
Definition invoke (p : Proc unit) (w : World) : World :=
  let '(m, o) := run_sync p (mem w) in
  {| mem := m;
     tasks := match o with
              | Suspended t => tasks w ++ [t]
              | _ => tasks w
              end |}.

Definition wait_handle {A : Type} (t : Wait A) : handle :=
  match t with WList h _ | WAdd h _ | WDelete h _ => h end.

Definition is_list {A : Type} (t : Wait A) : bool :=
  match t with WList _ _ => true | _ => false end.

(** The task awaiting promise [h], taken out of the queue. *)
Fixpoint take (h : handle) (ts : list Task) : option (Task * list Task) :=
  match ts with
  | [] => None
  | t :: ts' =>
    if decide (wait_handle t = h) then Some (t, ts')
    else '(t', rest) ← take h ts'; Some (t', t :: rest)
  end.

(** The callback of the derived store [schemas], run on each value
    [cur] of [databasesStore.currentDatabase]. *)
Definition schemas_derived (cur : option Database.t) (w : World) : World :=
  let s := schemasStore (mem w) in
  if decide (databaseId s ≠ Database.id <$> cur) then
    let w' :=
      match cur with
      | Some d =>
        if preload (mem w)
           && bool_decide (commonData_current_database = Some (Database.id d))
        then invoke (setSchemasInStore d commonData_schemas) w
        else invoke fetchSchemasForCurrentDatabase w
      | None => invoke fetchSchemasForCurrentDatabase w
      end in
    {| mem := with_preload false (mem w'); tasks := tasks w' |}
  else
    match requestStatus s with
    | failure _ => invoke fetchSchemasForCurrentDatabase w
    | _ => w
    end.

(** What can happen next: a caller invokes an exported function, the
    current database changes (the derived store [schemas], subscribed
    to, then runs its callback), or the server answers a call. *)
Inductive Event : Type :=
  | call_fetchSchemasForCurrentDatabase
  | call_createSchema (database : Database.t) (props : SchemaProps)
  | call_deleteSchema (schema : Schema.t)
  | set_currentDatabase (cur : option Database.t)
  | list_settled (h : handle) (r : Reply (list RawSchema.t))
  | add_settled (h : handle) (r : Reply RawSchema.t)
  | delete_settled (h : handle) (r : Reply unit).

(** Resume the task awaiting [h], if the reply is of its kind. *)
Definition resume (h : handle) (w : World)
    (continue : Task → option (Proc unit)) : World :=
  match take h (tasks w) with
  | Some (t, rest) =>
    match continue t with
    | Some p => invoke p {| mem := mem w; tasks := rest |}
    | None => w
    end
  | None => w
  end.

Definition step (w : World) (e : Event) : World :=
  match e with
  | call_fetchSchemasForCurrentDatabase => invoke fetchSchemasForCurrentDatabase w
  | call_createSchema database props => invoke (createSchema database props) w
  | call_deleteSchema schema => invoke (deleteSchema schema) w
  | set_currentDatabase cur =>
    schemas_derived cur
      {| mem := with_currentDatabase cur (mem w); tasks := tasks w |}
  | list_settled h r =>
    (* a cancelled promise is never settled *)
    if decide (h ∈ cancelled (mem w)) then w
    else resume h w (λ t, match t with WList _ k => Some (k r) | _ => None end)
  | add_settled h r =>
    resume h w (λ t, match t with WAdd _ k => Some (k r) | _ => None end)
  | delete_settled h r =>
    resume h w (λ t, match t with WDelete _ k => Some (k r) | _ => None end)
  end.

Definition run (w : World) (es : list Event) : World := foldl step w es.

(** The module just loaded; [cur] is the database selected then. *)
Definition init (cur : option Database.t) : World :=
  {| mem := {| schemasStore := makeEmptySchemasData;
               request := None;
               preload := true;
               currentDatabase := cur;
               cancelled := ∅;
               issued := [] |};
     tasks := [] |}.

(** ** What the functions compute *)

(** [request?.cancel()] *)
Definition cancel_request (m : Mem) : Mem :=
  match request m with
  | Some h => with_cancelled ({[h]} ∪ cancelled m) m
  | None => m
  end.

(** The store when a fetch for [d] starts. *)
Definition store_processing (d : Database.t) (s : SchemaStoreData) : SchemaStoreData :=
  if decide (databaseId s = Some (Database.id d)) then
    {| databaseId := databaseId s; requestStatus := processing; data := data s |}
  else
    {| databaseId := Some (Database.id d); requestStatus := processing; data := ∅ |}.

(** The store when the list call of a fetch for [d] was rejected. *)
Definition store_failure (d : Database.t) (err : Err) (s : SchemaStoreData) : SchemaStoreData :=
  if decide (databaseId s = Some (Database.id d)) then
    {| databaseId := databaseId s;
       requestStatus := failure [getErrorMessage err];
       data := data s |}
  else
    {| databaseId := Some (Database.id d);
       requestStatus := failure [getErrorMessage err];
       data := ∅ |}.

(** The map [setSchemasInStore] builds, and the store it sets. *)
Definition schemasMap (d : Database.t) (rawSchemas : list RawSchema.t) : gmap Z Schema.t :=
  foldl (λ schemasMap rawSchema,
           <[RawSchema.oid rawSchema := Schema.new d rawSchema]> schemasMap)
        ∅ rawSchemas.

Definition store_success (d : Database.t) (rawSchemas : list RawSchema.t) : SchemaStoreData :=
  {| databaseId := Some (Database.id d);
     requestStatus := success;
     data := schemasMap d rawSchemas |}.

(** The stores [updateSchemaInStore] and [removeSchemaInStore] set
    when their guard passes. *)
Definition store_insert (schema : Schema.t) (s : SchemaStoreData) : SchemaStoreData :=
  {| databaseId := databaseId s;
     requestStatus := requestStatus s;
     data := <[Schema.oid schema := schema]> (data s) |}.

Definition store_delete (schema : Schema.t) (s : SchemaStoreData) : SchemaStoreData :=
  {| databaseId := databaseId s;
     requestStatus := requestStatus s;
     data := delete (Schema.oid schema) (data s) |}.

(** The variables when [fetchSchemasForCurrentDatabase] reaches its
    [await], the current database being [d]. *)
Definition fetch_started (d : Database.t) (m : Mem) : Mem :=
  let m1 := cancel_request m in
  with_request (Some (length (issued m)))
    (with_issued (issued m ++ [api_schemas_list (Database.id d)])
       (with_schemasStore (store_processing d (schemasStore m1)) m1)).

(** What the three asynchronous functions do after their [await]. *)
Definition fetch_resumed (d : Database.t) (r : Reply (list RawSchema.t)) : Proc unit :=
  try_catch (rawSchemas ← settle r; setSchemasInStore d rawSchemas)
    (λ err, update_schemasStore (store_failure d err)).

Definition create_resumed (database : Database.t) (r : Reply RawSchema.t) : Proc unit :=
  rawSchema ← settle r;
  updateSchemaInStore database (Schema.new database rawSchema).

Definition delete_resumed (schema : Schema.t) (r : Reply unit) : Proc unit :=
  _ ← settle r;
  removeSchemaInStore (Schema.database schema) schema.

(** ** Uninterrupted runs

    A call whose reply arrives before anything else happens. *)

Definition answered_add (r : Reply RawSchema.t)
    (x : Mem * Outcome unit) : Mem * Outcome unit :=
  match x with
  | (m, Suspended (WAdd _ k)) => run_sync (k r) m
  | _ => x
  end.

Definition answered_delete (r : Reply unit)
    (x : Mem * Outcome unit) : Mem * Outcome unit :=
  match x with
  | (m, Suspended (WDelete _ k)) => run_sync (k r) m
  | _ => x
  end.

(** ** Predicates on stores and worlds *)

(** Every schema of the map is owned by the database of the store. *)
Definition store_consistent (s : SchemaStoreData) : Prop :=
  ∀ oid schema, data s !! oid = Some schema →
    databaseId s = Some (Database.id (Schema.database schema)).

(** The list requests in flight: awaited and not cancelled. *)
Definition in_flight (w : World) : list Task :=
  filter (λ t, is_list t = true ∧ wait_handle t ∉ cancelled (mem w)) (tasks w).

(** The tasks this module can leave suspended. *)
Inductive task_known : Task → Prop :=
  | known_fetch h d : task_known (WList h (fetch_resumed d))
  | known_create h database : task_known (WAdd h (create_resumed database))
  | known_delete h schema : task_known (WDelete h (delete_resumed schema)).

(** What holds of every world the event loop reaches. *)
Record Inv (w : World) : Prop := {
  inv_known : ∀ t, t ∈ tasks w → task_known t;
  inv_fresh : ∀ t, t ∈ tasks w → wait_handle t < length (issued (mem w));
  inv_nodup : NoDup (wait_handle <$> tasks w);
  inv_request : ∀ h, request (mem w) = Some h → h < length (issued (mem w));
  inv_cancelled : ∀ h, h ∈ cancelled (mem w) → h < length (issued (mem w));
  inv_latest : ∀ t, t ∈ tasks w → is_list t = true →
               wait_handle t ∉ cancelled (mem w) →
               request (mem w) = Some (wait_handle t);
  inv_store : store_consistent (schemasStore (mem w))
}.

(** The preloaded schemas are those of database [cur]. *)
Definition preloaded_for (cur : option Database.t) : Prop :=
  ∃ d, cur = Some d ∧ commonData_current_database = Some (Database.id d).

(** The page starts on the database it was preloaded for, or on none. *)
Definition starts_on_preloaded (cur : option Database.t) : Prop :=
  cur = None ∨ preloaded_for cur.

(** The suspended tasks, their list requests being for database [b]. *)
Inductive task_on (b : Z) : Task → Prop :=
  | on_fetch h d :
      Database.id d = b → task_on b (WList h (fetch_resumed d))
  | on_create h database : task_on b (WAdd h (create_resumed database))
  | on_delete h schema : task_on b (WDelete h (delete_resumed schema)).

(** While the preloaded schemas of database [b] are unused, either the
    store is on no database and no list request is pending, or the
    store, the selection and the pending list requests are all on [b]. *)
Definition Unspent (w : World) : Prop :=
  preload (mem w) = true →
  ∀ b, commonData_current_database = Some b →
    (databaseId (schemasStore (mem w)) = None
     ∧ (∀ t, t ∈ tasks w → is_list t = false)
     ∧ (currentDatabase (mem w) = None
        ∨ Database.id <$> currentDatabase (mem w) = Some b))
    ∨ (databaseId (schemasStore (mem w)) = Some b
       ∧ Database.id <$> currentDatabase (mem w) = Some b
       ∧ ∀ t, t ∈ tasks w → task_on b t).

(** ** The current schema *)

(** The derived store [currentSchema], as a function of the values of
    [currentSchemaId] and [schemas] (the latter is the value of
    [schemasStore]).  [$currentSchemaId ? ... : undefined]: an
    undefined id and the number 0 are both falsy. *)
Definition currentSchema (currentSchemaId : option Z)
    (schemas : SchemaStoreData) : option Schema.t :=
  match currentSchemaId with
  | Some oid => if decide (oid = 0%Z) then None else data schemas !! oid
  | None => None
  end.

(** ** More predicates on stores and worlds *)

(** The ways one step of the event loop changes the store. *)
Inductive store_moves : SchemaStoreData → SchemaStoreData → Prop :=
  | moves_not s : store_moves s s
  | moves_empty s : store_moves s makeEmptySchemasData
  | moves_processing d s : store_moves s (store_processing d s)
  | moves_success d rawSchemas s : store_moves s (store_success d rawSchemas)
  | moves_failure d err s : store_moves s (store_failure d err s)
  | moves_insert database rawSchema s :
      databaseId s = Some (Database.id database) →
      store_moves s (store_insert (Schema.new database rawSchema) s)
  | moves_delete schema s :
      databaseId s = Some (Database.id (Schema.database schema)) →
      store_moves s (store_delete schema s).

(** Every schema of the map sits under its own oid. *)
Definition store_keyed (s : SchemaStoreData) : Prop :=
  ∀ oid schema, data s !! oid = Some schema → Schema.oid schema = oid.

(** The store is on the selected database, if on any, and so is the
    list request in flight. *)
Definition Synced (w : World) : Prop :=
  (databaseId (schemasStore (mem w)) = None
   ∨ databaseId (schemasStore (mem w)) = Database.id <$> currentDatabase (mem w))
  ∧ ∀ t, t ∈ in_flight w →
      ∃ b, databaseId (schemasStore (mem w)) = Some b
           ∧ Database.id <$> currentDatabase (mem w) = Some b
           ∧ task_on b t.

(** While the store says [processing], a list request is in flight. *)
Definition Busy (w : World) : Prop :=
  requestStatus (schemasStore (mem w)) = processing → length (in_flight w) = 1.

(** While a list request is in flight, the store says [processing]. *)
Definition Shown (w : World) : Prop :=
  in_flight w ≠ [] → requestStatus (schemasStore (mem w)) = processing.

(** The event is the arrival of the reply to promise [h]. *)
Definition settles (h : handle) (e : Event) : bool :=
  match e with
  | list_settled h' _ | add_settled h' _ | delete_settled h' _ =>
    bool_decide (h' = h)
  | _ => false
  end.

(** The list requests awaited are calls issued: the task of a fetch
    for [d] awaits the promise of a list call for [d]. *)
Definition Listed (w : World) : Prop :=
  ∀ h d, WList h (fetch_resumed d) ∈ tasks w →
    issued (mem w) !! h = Some (api_schemas_list (Database.id d)).

(** ** The functions, one by one *)

Lemma run_setSchemasInStore d rawSchemas m :
  run_sync (setSchemasInStore d rawSchemas) m
  = (with_schemasStore (store_success d rawSchemas) m, Returned ()).
Proof. reflexivity. Qed.

Lemma run_fetch_None m :
  currentDatabase m = None →
  run_sync fetchSchemasForCurrentDatabase m
  = (with_schemasStore makeEmptySchemasData (cancel_request m), Returned ()).
Proof.
  intros Hcur. unfold fetchSchemasForCurrentDatabase, cancel_request.
  destruct m as [s [h|] p cur c i]; simpl in *; subst cur; reflexivity.
Qed.

Lemma run_fetch_Some m d :
  currentDatabase m = Some d →
  run_sync fetchSchemasForCurrentDatabase m
  = (fetch_started d m, Suspended (WList (length (issued m)) (fetch_resumed d))).
Proof.
  intros Hcur. unfold fetchSchemasForCurrentDatabase, fetch_started, cancel_request.
  destruct m as [s [h|] p cur c i]; simpl in *; subst cur; reflexivity.
Qed.

Lemma run_fetch_resolved d rawSchemas m :
  run_sync (fetch_resumed d (inr rawSchemas)) m
  = (with_schemasStore (store_success d rawSchemas) m, Returned ()).
Proof. reflexivity. Qed.


Lemma run_createSchema database props m :
  run_sync (createSchema database props) m
  = (with_issued (issued m ++ [api_schemas_add (Database.id database)
                                 (props_name props) (props_description props)]) m,
     Suspended (WAdd (length (issued m)) (create_resumed database))).
Proof. reflexivity. Qed.

Lemma run_deleteSchema schema m :
  run_sync (deleteSchema schema) m
  = (with_issued (issued m ++ [schema_delete schema]) m,
     Suspended (WDelete (length (issued m)) (delete_resumed schema))).
Proof. reflexivity. Qed.

Lemma run_updateSchemaInStore database schema m :
  run_sync (updateSchemaInStore database schema) m
  = (if decide (databaseId (schemasStore m) = Some (Database.id database))
     then with_schemasStore (store_insert schema (schemasStore m)) m
     else m,
     Returned ()).
Proof.
  unfold updateSchemaInStore. simpl. by case_decide.
Qed.

Lemma run_removeSchemaInStore database schema m :
  run_sync (removeSchemaInStore database schema) m
  = (if decide (databaseId (schemasStore m) = Some (Database.id database))
     then with_schemasStore (store_delete schema (schemasStore m)) m
     else m,
     Returned ()).
Proof.
  unfold removeSchemaInStore. simpl. by case_decide.
Qed.

Lemma run_create_resolved database rawSchema m :
  run_sync (create_resumed database (inr rawSchema)) m
  = (if decide (databaseId (schemasStore m) = Some (Database.id database))
     then with_schemasStore
            (store_insert (Schema.new database rawSchema) (schemasStore m)) m
     else m,
     Returned ()).
Proof. apply run_updateSchemaInStore. Qed.


Lemma run_delete_resolved schema m :
  run_sync (delete_resumed schema (inr ())) m
  = (if decide (databaseId (schemasStore m)
                = Some (Database.id (Schema.database schema)))
     then with_schemasStore (store_delete schema (schemasStore m)) m
     else m,
     Returned ()).
Proof. apply run_removeSchemaInStore. Qed.


(** ** The map built from a list reply *)

Lemma schemasMap_snoc d l r :
  schemasMap d (l ++ [r])
  = <[RawSchema.oid r := Schema.new d r]> (schemasMap d l).
Proof. unfold schemasMap. by rewrite foldl_snoc. Qed.

Lemma schemasMap_lookup_Some d l oid schema :
  schemasMap d l !! oid = Some schema →
  ∃ r, r ∈ l ∧ RawSchema.oid r = oid ∧ schema = Schema.new d r.
Proof.
  induction l as [|r l IH] using rev_ind.
  - unfold schemasMap. simpl. by rewrite lookup_empty.
  - rewrite schemasMap_snoc, lookup_insert. case_decide as Hk.
    + intros [= <-]. exists r. split; [| done].
      apply elem_of_app. right. by apply list_elem_of_singleton.
    + intros Hl. destruct (IH Hl) as (r' & Hin & Hr').
      exists r'. split; [| done]. apply elem_of_app. by left.
Qed.

Lemma schemasMap_is_Some d l r :
  r ∈ l → is_Some (schemasMap d l !! RawSchema.oid r).
Proof.
  induction l as [|x l IH] using rev_ind; [set_solver |].
  rewrite schemasMap_snoc, lookup_insert. intros Hin.
  case_decide; [by eexists |].
  apply IH. apply elem_of_app in Hin as [Hin | Hin]; [done |].
  apply list_elem_of_singleton in Hin. by subst.
Qed.

Lemma schemasMap_lookup_last d l1 r l2 :
  (∀ r', r' ∈ l2 → RawSchema.oid r' ≠ RawSchema.oid r) →
  schemasMap d (l1 ++ r :: l2) !! RawSchema.oid r = Some (Schema.new d r).
Proof.
  induction l2 as [|x l2 IH] using rev_ind; intros Hlater.
  - rewrite schemasMap_snoc. apply lookup_insert_eq.
  - replace (l1 ++ r :: l2 ++ [x]) with ((l1 ++ r :: l2) ++ [x])
      by (by rewrite <- app_assoc).
    rewrite schemasMap_snoc, lookup_insert_ne.
    + apply IH. intros r' Hr'. apply Hlater, elem_of_app. by left.
    + apply Hlater, elem_of_app. right. by apply list_elem_of_singleton.
Qed.


(** ** The guard of the edits *)

(** C3, as amended.  The two edits of the map check the store's
    [databaseId] first: [updateSchemaInStore] and [removeSchemaInStore]
    change nothing when it is not the id of their database, so the
    reply to an add or a delete that arrives when the store is on
    another database is dropped.  [setSchemasInStore] makes no such
    check: it sets the store whatever its [databaseId] was. *)
Theorem edits_guarded_by_databaseId database schema m :
  databaseId (schemasStore m) ≠ Some (Database.id database) →
  run_sync (updateSchemaInStore database schema) m = (m, Returned ())
  ∧ run_sync (removeSchemaInStore database schema) m = (m, Returned ())
  ∧ (∀ rawSchema, run_sync (create_resumed database (inr rawSchema)) m
                  = (m, Returned ()))
  ∧ (Schema.database schema = database →
     run_sync (delete_resumed schema (inr ())) m = (m, Returned ()))
  ∧ (∀ rawSchemas,
       schemasStore (run_sync (setSchemasInStore database rawSchemas) m).1
       = store_success database rawSchemas).
Proof.
  intros Hne. repeat split.
  - rewrite run_updateSchemaInStore. by rewrite decide_False.
  - rewrite run_removeSchemaInStore. by rewrite decide_False.
  - intros rawSchema. rewrite run_create_resolved. by rewrite decide_False.
  - intros <-. rewrite run_delete_resolved. by rewrite decide_False.
Qed.

(** ** The event loop, step by step *)

Lemma take_Some h ts t rest :
  take h ts = Some (t, rest) →
  wait_handle t = h ∧ ∃ l1 l2, ts = l1 ++ t :: l2 ∧ rest = l1 ++ l2.
Proof.
  revert t rest. induction ts as [|x ts IH]; intros t rest; simpl; [done |].
  case_decide as Hx.
  - intros [= <- <-]. split; [done |]. by exists [], ts.
  - destruct (take h ts) as [[t' rest']|] eqn:Ht; simpl; [| done].
    intros [= <- <-]. destruct (IH _ _ eq_refl) as (Hh & l1 & l2 & -> & ->).
    split; [done |]. by exists (x :: l1), l2.
Qed.

Lemma invoke_fetch_None w :
  currentDatabase (mem w) = None →
  invoke fetchSchemasForCurrentDatabase w
  = {| mem := with_schemasStore makeEmptySchemasData (cancel_request (mem w));
       tasks := tasks w |}.
Proof. intros Hcur. unfold invoke. by rewrite run_fetch_None. Qed.

Lemma invoke_fetch_Some w d :
  currentDatabase (mem w) = Some d →
  invoke fetchSchemasForCurrentDatabase w
  = {| mem := fetch_started d (mem w);
       tasks := tasks w ++ [WList (length (issued (mem w))) (fetch_resumed d)] |}.
Proof. intros Hcur. unfold invoke. by rewrite (run_fetch_Some _ d). Qed.

Lemma invoke_fetch_resumed d r w :
  invoke (fetch_resumed d r) w
  = {| mem := with_schemasStore
                match r with
                | inr rawSchemas => store_success d rawSchemas
                | inl err => store_failure d err (schemasStore (mem w))
                end (mem w);
       tasks := tasks w |}.
Proof. by destruct r. Qed.

Lemma invoke_create_resumed database r w :
  invoke (create_resumed database r) w
  = {| mem := match r with
              | inr rawSchema =>
                if decide (databaseId (schemasStore (mem w))
                           = Some (Database.id database))
                then with_schemasStore
                       (store_insert (Schema.new database rawSchema)
                          (schemasStore (mem w))) (mem w)
                else mem w
              | inl _ => mem w
              end;
       tasks := tasks w |}.
Proof.
  destruct r as [err | rawSchema]; [done |].
  unfold invoke. by rewrite run_create_resolved.
Qed.

Lemma invoke_delete_resumed schema r w :
  invoke (delete_resumed schema r) w
  = {| mem := match r with
              | inr _ =>
                if decide (databaseId (schemasStore (mem w))
                           = Some (Database.id (Schema.database schema)))
                then with_schemasStore
                       (store_delete schema (schemasStore (mem w))) (mem w)
                else mem w
              | inl _ => mem w
              end;
       tasks := tasks w |}.
Proof.
  destruct r as [err | []]; [done |].
  unfold invoke. by rewrite run_delete_resolved.
Qed.

(** ** Consistent stores *)

Lemma store_consistent_empty : store_consistent makeEmptySchemasData.
Proof. intros oid schema. simpl. by rewrite lookup_empty. Qed.

Lemma store_consistent_success d rawSchemas :
  store_consistent (store_success d rawSchemas).
Proof.
  intros oid schema Hl. simpl in *.
  by destruct (schemasMap_lookup_Some _ _ _ _ Hl) as (r & _ & _ & ->).
Qed.

Lemma store_consistent_processing d s :
  store_consistent s → store_consistent (store_processing d s).
Proof.
  intros Hs oid schema. unfold store_processing.
  case_decide; simpl; [apply Hs | by rewrite lookup_empty].
Qed.

Lemma store_consistent_failure d err s :
  store_consistent s → store_consistent (store_failure d err s).
Proof.
  intros Hs oid schema. unfold store_failure.
  case_decide; simpl; [apply Hs | by rewrite lookup_empty].
Qed.

Lemma store_consistent_insert database rawSchema s :
  databaseId s = Some (Database.id database) →
  store_consistent s →
  store_consistent (store_insert (Schema.new database rawSchema) s).
Proof.
  intros Hid Hs oid schema. simpl. rewrite lookup_insert.
  case_decide; [by intros [= <-] | apply Hs].
Qed.

Lemma store_consistent_delete schema s :
  store_consistent s → store_consistent (store_delete schema s).
Proof.
  intros Hs oid schema'. simpl. rewrite lookup_delete.
  case_decide; [done | apply Hs].
Qed.

(** ** The invariant is kept *)

Lemma Inv_init cur : Inv (init cur).
Proof.
  split; simpl; try set_solver.
  - constructor.
  - apply store_consistent_empty.
Qed.

Lemma Inv_store w s :
  Inv w → store_consistent s →
  Inv {| mem := with_schemasStore s (mem w); tasks := tasks w |}.
Proof. intros [] Hs. by split. Qed.

Lemma Inv_preload w b :
  Inv w → Inv {| mem := with_preload b (mem w); tasks := tasks w |}.
Proof. intros []. by split. Qed.

Lemma Inv_currentDatabase w cur :
  Inv w → Inv {| mem := with_currentDatabase cur (mem w); tasks := tasks w |}.
Proof. intros []. by split. Qed.

Lemma Inv_tasks_remove w l1 t l2 :
  Inv w → tasks w = l1 ++ t :: l2 →
  Inv {| mem := mem w; tasks := l1 ++ l2 |}.
Proof.
  intros [Hk Hf Hn Hr Hc Hl Hs] Ht.
  assert (Hsub : ∀ x, x ∈ l1 ++ l2 → x ∈ tasks w).
  { intros x. rewrite Ht, !elem_of_app, elem_of_cons. tauto. }
  split; simpl; auto.
  rewrite Ht, fmap_app, fmap_cons in Hn. rewrite fmap_app.
  apply NoDup_app in Hn as (Hn1 & Hn12 & Hn2).
  apply NoDup_cons in Hn2 as [_ Hn2].
  apply NoDup_app. repeat split; [done | | done].
  intros x Hx1 Hx2. apply (Hn12 x Hx1). by right.
Qed.

Lemma cancelled_cancel_request m h :
  h ∈ cancelled (cancel_request m) ↔ request m = Some h ∨ h ∈ cancelled m.
Proof.
  unfold cancel_request. destruct (request m) as [h'|]; simpl.
  - rewrite elem_of_union, elem_of_singleton.
    split; (intros [H | H]; [left | by right]); congruence.
  - split; [auto | by intros [? | ?]].
Qed.

Lemma issued_cancel_request m : issued (cancel_request m) = issued m.
Proof. unfold cancel_request. by destruct (request m). Qed.

Lemma request_cancel_request m : request (cancel_request m) = request m.
Proof. unfold cancel_request. by destruct (request m) eqn:Hreq. Qed.

Lemma schemasStore_cancel_request m :
  schemasStore (cancel_request m) = schemasStore m.
Proof. unfold cancel_request. by destruct (request m). Qed.

Lemma Inv_cancel_request w :
  Inv w → Inv {| mem := cancel_request (mem w); tasks := tasks w |}.
Proof.
  intros [Hk Hf Hn Hr Hc Hl Hs].
  split; simpl;
    rewrite ?issued_cancel_request, ?request_cancel_request,
            ?schemasStore_cancel_request; auto.
  - intros h [Hh | Hh]%cancelled_cancel_request; auto.
  - intros t Ht Hlist Hnc. apply Hl; [done | done |].
    intros Hin. apply Hnc, cancelled_cancel_request. by right.
Qed.

Lemma Inv_issue w c t :
  Inv w → task_known t → is_list t = false →
  wait_handle t = length (issued (mem w)) →
  Inv {| mem := with_issued (issued (mem w) ++ [c]) (mem w);
         tasks := tasks w ++ [t] |}.
Proof.
  intros [Hk Hf Hn Hr Hc Hl Hs] Hkt Hnl Hh.
  split; simpl; rewrite ?length_app; simpl; auto.
  - intros x [Hx | ->%list_elem_of_singleton]%elem_of_app; auto.
  - intros x [Hx | ->%list_elem_of_singleton]%elem_of_app;
      [specialize (Hf x Hx) |]; lia.
  - rewrite fmap_app. apply NoDup_app. repeat split; [done | | apply NoDup_singleton].
    intros h (x & -> & Hx)%list_elem_of_fmap Hin.
    apply list_elem_of_singleton in Hin. specialize (Hf x Hx). lia.
  - intros h Hh'. specialize (Hr h Hh'). lia.
  - intros h Hh'. specialize (Hc h Hh'). lia.
  - intros x [Hx | ->%list_elem_of_singleton]%elem_of_app; [auto | congruence].
Qed.

Lemma Inv_fetch_started w d :
  Inv w →
  Inv {| mem := fetch_started d (mem w);
         tasks := tasks w ++ [WList (length (issued (mem w))) (fetch_resumed d)] |}.
Proof.
  intros [Hk Hf Hn Hr Hc Hl Hs].
  split; simpl; rewrite ?length_app; simpl; auto.
  - intros x [Hx | ->%list_elem_of_singleton]%elem_of_app; [auto | constructor].
  - intros x [Hx | ->%list_elem_of_singleton]%elem_of_app;
      [specialize (Hf x Hx) |]; simpl; lia.
  - rewrite fmap_app. apply NoDup_app. repeat split; [done | | apply NoDup_singleton].
    intros h (x & -> & Hx)%list_elem_of_fmap Hin.
    apply list_elem_of_singleton in Hin. simpl in Hin. specialize (Hf x Hx). lia.
  - intros h [= <-]. lia.
  - intros h [Hh | Hh]%cancelled_cancel_request;
      [specialize (Hr h Hh) | specialize (Hc h Hh)]; lia.
  - intros x [Hx | ->%list_elem_of_singleton]%elem_of_app; [| done].
    intros Hlist Hnc. exfalso. apply Hnc, cancelled_cancel_request.
    destruct (decide (wait_handle x ∈ cancelled (mem w))); auto.
  - rewrite schemasStore_cancel_request. by apply store_consistent_processing.
Qed.

Lemma Inv_invoke_fetch w : Inv w → Inv (invoke fetchSchemasForCurrentDatabase w).
Proof.
  intros HI. destruct (currentDatabase (mem w)) as [d|] eqn:Hcur.
  - rewrite (invoke_fetch_Some _ d Hcur). by apply Inv_fetch_started.
  - rewrite (invoke_fetch_None _ Hcur).
    apply (Inv_store {| mem := cancel_request (mem w); tasks := tasks w |}).
    + by apply Inv_cancel_request.
    + apply store_consistent_empty.
Qed.

Lemma Inv_invoke_setSchemasInStore d rawSchemas w :
  Inv w → Inv (invoke (setSchemasInStore d rawSchemas) w).
Proof. intros HI. apply Inv_store; [done | apply store_consistent_success]. Qed.

Lemma Inv_schemas_derived cur w : Inv w → Inv (schemas_derived cur w).
Proof.
  intros HI. unfold schemas_derived. case_decide.
  - apply (Inv_preload _ false).
    destruct cur as [d|]; [case_match |];
      auto using Inv_invoke_fetch, Inv_invoke_setSchemasInStore.
  - case_match; auto using Inv_invoke_fetch.
Qed.

Lemma Inv_invoke_resumed t w :
  task_known t → Inv w →
  match t with
  | WList _ k | WAdd _ k | WDelete _ k => ∀ r, Inv (invoke (k r) w)
  end.
Proof.
  intros [h d | h database | h schema] HI r.
  - rewrite invoke_fetch_resumed. apply Inv_store; [done |].
    destruct r; [apply store_consistent_failure, HI | apply store_consistent_success].
  - rewrite invoke_create_resumed.
    destruct r as [err | rawSchema]; [by destruct w |].
    case_decide; [| by destruct w].
    apply Inv_store; [done |]. apply store_consistent_insert; [done | apply HI].
  - rewrite invoke_delete_resumed.
    destruct r as [err | u]; [by destruct w |].
    case_decide; [| by destruct w].
    apply Inv_store; [done |]. apply store_consistent_delete, HI.
Qed.

Lemma Inv_step w e : Inv w → Inv (step w e).
Proof.
  intros HI.
  assert (Hresume : ∀ h continue,
    (∀ t p, task_known t → continue t = Some p → ∀ w', Inv w' → Inv (invoke p w')) →
    Inv (resume h w continue)).
  { intros h continue Hcont. unfold resume.
    destruct (take h (tasks w)) as [[t rest]|] eqn:Ht; [| done].
    destruct (take_Some _ _ _ _ Ht) as (Hh & l1 & l2 & Hts & ->).
    destruct (continue t) as [p|] eqn:Hp; [| done].
    apply (Hcont t p); [| done |].
    - apply HI. rewrite Hts. apply elem_of_app. right. by left.
    - by apply (Inv_tasks_remove w l1 t l2). }
  destruct e as [| database props | schema | cur | h r | h r | h r]; simpl.
  - by apply Inv_invoke_fetch.
  - unfold invoke. rewrite run_createSchema.
    apply (Inv_issue w); [done | constructor | done | done].
  - unfold invoke. rewrite run_deleteSchema.
    apply (Inv_issue w); [done | constructor | done | done].
  - by apply Inv_schemas_derived, Inv_currentDatabase.
  - case_decide; [done |]. apply Hresume.
    intros t p Hk Hp w' HI'. pose proof (Inv_invoke_resumed t w' Hk HI') as Hres.
    destruct t; simplify_eq. apply Hres.
  - apply Hresume.
    intros t p Hk Hp w' HI'. pose proof (Inv_invoke_resumed t w' Hk HI') as Hres.
    destruct t; simplify_eq. apply Hres.
  - apply Hresume.
    intros t p Hk Hp w' HI'. pose proof (Inv_invoke_resumed t w' Hk HI') as Hres.
    destruct t; simplify_eq. apply Hres.
Qed.

Lemma Inv_run w es : Inv w → Inv (run w es).
Proof.
  revert w. induction es as [|e es IH]; intros w HI; [done |].
  simpl. by apply IH, Inv_step.
Qed.

(** ** Requests in flight and cancellation *)

Lemma filter_none {A} (P : A → Prop) `{∀ x, Decision (P x)} (l : list A) :
  (∀ x, x ∈ l → ¬ P x) → filter P l = [].
Proof.
  induction l as [|x l IH]; intros Hl; [done |].
  rewrite filter_cons_False; [| apply Hl; by left].
  apply IH. intros y Hy. apply Hl. by right.
Qed.

Lemma in_flight_latest w t :
  Inv w → t ∈ in_flight w → request (mem w) = Some (wait_handle t).
Proof.
  intros HI (Hp & Ht)%list_elem_of_filter. destruct Hp. by apply HI.
Qed.

Lemma in_flight_at_most_one w : Inv w → length (in_flight w) ≤ 1.
Proof.
  intros HI.
  assert (Hnd : NoDup (wait_handle <$> in_flight w)).
  { eapply sublist_NoDup; [apply HI |].
    apply fmap_sublist, sublist_filter. }
  pose proof (in_flight_latest w) as Hlatest.
  destruct (in_flight w) as [|t1 [|t2 ts]]; simpl; [lia | lia |].
  exfalso. rewrite !fmap_cons in Hnd. apply NoDup_cons in Hnd as [Hnin _].
  assert (Some (wait_handle t1) = Some (wait_handle t2)) as [= Heq].
  { rewrite <- (Hlatest t1), <- (Hlatest t2); [done | done | | done |].
    - right. by left.
    - by left. }
  apply Hnin. rewrite Heq. by left.
Qed.

(** Calling [fetchSchemasForCurrentDatabase] leaves every list request
    that was pending cancelled. *)
Lemma invoke_fetch_cancels w t :
  Inv w → t ∈ tasks w → is_list t = true →
  wait_handle t ∈ cancelled (mem (invoke fetchSchemasForCurrentDatabase w)).
Proof.
  intros HI Ht Hl.
  assert (wait_handle t ∈ cancelled (cancel_request (mem w))) as Hc.
  { apply cancelled_cancel_request.
    destruct (decide (wait_handle t ∈ cancelled (mem w))); [by right | left].
    by apply HI. }
  destruct (currentDatabase (mem w)) as [d|] eqn:Hcur.
  - by rewrite (invoke_fetch_Some _ d Hcur).
  - by rewrite (invoke_fetch_None _ Hcur).
Qed.

(** After such a call with a database selected, the request in flight
    is the new one. *)
Lemma invoke_fetch_in_flight w d :
  Inv w → currentDatabase (mem w) = Some d →
  in_flight (invoke fetchSchemasForCurrentDatabase w)
  = [WList (length (issued (mem w))) (fetch_resumed d)].
Proof.
  intros HI Hcur. pose proof (invoke_fetch_cancels w) as Hcancels.
  rewrite (invoke_fetch_Some _ d Hcur) in *. unfold in_flight. simpl in *.
  rewrite filter_app, filter_none.
  - simpl. rewrite filter_cons_True, filter_nil; [done |]. split; [done |]. simpl.
    intros [Hr | Hc]%cancelled_cancel_request.
    + apply (inv_request _ HI) in Hr. lia.
    + apply (inv_cancelled _ HI) in Hc. lia.
  - intros t Ht [Hl Hnc]. apply Hnc. by apply Hcancels.
Qed.

Lemma invoke_fetch_cancelled_mono w h :
  h ∈ cancelled (mem w) →
  h ∈ cancelled (mem (invoke fetchSchemasForCurrentDatabase w)).
Proof.
  intros Hc.
  assert (h ∈ cancelled (cancel_request (mem w))) as Hc'.
  { apply cancelled_cancel_request. by right. }
  destruct (currentDatabase (mem w)) as [d|] eqn:Hcur.
  - by rewrite (invoke_fetch_Some _ d Hcur).
  - by rewrite (invoke_fetch_None _ Hcur).
Qed.

Lemma schemas_derived_cancelled_mono cur w h :
  h ∈ cancelled (mem w) → h ∈ cancelled (mem (schemas_derived cur w)).
Proof.
  intros Hc. unfold schemas_derived. case_decide.
  - simpl. destruct cur as [d|]; [case_match |];
      auto using invoke_fetch_cancelled_mono.
  - case_match; auto using invoke_fetch_cancelled_mono.
Qed.

Lemma invoke_resumed_cancelled t w :
  task_known t →
  match t with
  | WList _ k | WAdd _ k | WDelete _ k =>
    ∀ r, cancelled (mem (invoke (k r) w)) = cancelled (mem w)
  end.
Proof.
  intros [h d | h database | h schema] r.
  - by rewrite invoke_fetch_resumed.
  - rewrite invoke_create_resumed. destruct r; [done |]. by case_decide.
  - rewrite invoke_delete_resumed. destruct r; [done |]. by case_decide.
Qed.

Lemma step_cancelled_mono w e h :
  Inv w → h ∈ cancelled (mem w) → h ∈ cancelled (mem (step w e)).
Proof.
  intros HI Hc.
  assert (Hresume : ∀ h' continue,
    (∀ t p, task_known t → continue t = Some p →
            ∀ w', cancelled (mem (invoke p w')) = cancelled (mem w')) →
    h ∈ cancelled (mem (resume h' w continue))).
  { intros h' continue Hcont. unfold resume.
    destruct (take h' (tasks w)) as [[t rest]|] eqn:Ht; [| done].
    destruct (take_Some _ _ _ _ Ht) as (Hh & l1 & l2 & Hts & ->).
    destruct (continue t) as [p|] eqn:Hp; [| done].
    rewrite (Hcont t p); [done | | done].
    apply HI. rewrite Hts. apply elem_of_app. right. by left. }
  destruct e as [| database props | schema | cur | h' r | h' r | h' r]; simpl.
  - by apply invoke_fetch_cancelled_mono.
  - done.
  - done.
  - by apply schemas_derived_cancelled_mono.
  - case_decide; [done |]. apply Hresume.
    intros t p Hk Hp w'. pose proof (invoke_resumed_cancelled t w' Hk) as Hres.
    destruct t; simplify_eq. apply Hres.
  - apply Hresume.
    intros t p Hk Hp w'. pose proof (invoke_resumed_cancelled t w' Hk) as Hres.
    destruct t; simplify_eq. apply Hres.
  - apply Hresume.
    intros t p Hk Hp w'. pose proof (invoke_resumed_cancelled t w' Hk) as Hres.
    destruct t; simplify_eq. apply Hres.
Qed.

Lemma run_cancelled_mono w es h :
  Inv w → h ∈ cancelled (mem w) → h ∈ cancelled (mem (run w es)).
Proof.
  revert w. induction es as [|e es IH]; intros w HI Hc; [done |].
  simpl. apply IH; [by apply Inv_step | by apply step_cancelled_mono].
Qed.

(** The reply to a cancelled list request changes nothing. *)
Lemma list_settled_cancelled w h r :
  h ∈ cancelled (mem w) → step w (list_settled h r) = w.
Proof. intros Hc. simpl. by rewrite decide_True. Qed.

(** When the database changes to one the store is not on, and the
    preloaded schemas do not serve, the derived store calls
    [fetchSchemasForCurrentDatabase]. *)
Lemma schemas_derived_fetches cur w :
  databaseId (schemasStore (mem w)) ≠ Database.id <$> cur →
  preload (mem w) = false ∨ cur = None
    ∨ commonData_current_database ≠ Database.id <$> cur →
  schemas_derived cur w
  = {| mem := with_preload false (mem (invoke fetchSchemasForCurrentDatabase w));
       tasks := tasks (invoke fetchSchemasForCurrentDatabase w) |}.
Proof.
  intros Hne Hpre. unfold schemas_derived. rewrite decide_True; [| done].
  destruct cur as [d|]; [| done].
  destruct Hpre as [-> | [[=] | Hcd]]; [done |].
  rewrite bool_decide_eq_false_2; [| done]. by rewrite andb_false_r.
Qed.

(** ** While the preloaded schemas are unused *)

Lemma Unspent_init cur : starts_on_preloaded cur → Unspent (init cur).
Proof.
  intros Hcur _ b Hb. left. simpl. split; [done |]. split; [set_solver |].
  destruct Hcur as [-> | (d & -> & Hd)]; [by left | right].
  simpl. congruence.
Qed.

Lemma preload_cancel_request m : preload (cancel_request m) = preload m.
Proof. unfold cancel_request. by destruct (request m). Qed.

Lemma currentDatabase_cancel_request m :
  currentDatabase (cancel_request m) = currentDatabase m.
Proof. unfold cancel_request. by destruct (request m). Qed.

Lemma databaseId_store_processing d s :
  databaseId (store_processing d s) = Some (Database.id d).
Proof. unfold store_processing. by case_decide. Qed.

Lemma databaseId_store_failure d err s :
  databaseId (store_failure d err s) = Some (Database.id d).
Proof. unfold store_failure. by case_decide. Qed.

Lemma task_on_other b t : task_known t → is_list t = false → task_on b t.
Proof. intros [h d | h database | h schema] Hl; [done | |]; constructor. Qed.

Lemma Unspent_invoke_fetch w :
  Inv w → Unspent w → Unspent (invoke fetchSchemasForCurrentDatabase w).
Proof.
  intros HI HU. destruct (currentDatabase (mem w)) as [d|] eqn:Hcur.
  - rewrite (invoke_fetch_Some _ d Hcur). intros Hp b Hb. simpl in *.
    rewrite preload_cancel_request in Hp.
    rewrite currentDatabase_cancel_request, databaseId_store_processing, Hcur.
    right.
    assert (Database.id d = b) as Hd.
    { destruct (HU Hp b Hb) as [(_ & _ & [Hc | Hc]) | (_ & Hc & _)];
        rewrite Hcur in Hc; simpl in Hc; congruence. }
    split; [by rewrite Hd |]. split; [simpl; by rewrite Hd |].
    intros t [Ht | ->%list_elem_of_singleton]%elem_of_app; [| by constructor].
    destruct (HU Hp b Hb) as [(_ & Hnl & _) | (_ & _ & Hon)]; [| by apply Hon].
    apply task_on_other; [by apply HI | by apply Hnl].
  - rewrite (invoke_fetch_None _ Hcur). intros Hp b Hb. simpl in *.
    rewrite preload_cancel_request in Hp.
    rewrite currentDatabase_cancel_request, Hcur. left.
    split; [done |]. split; [| by left].
    destruct (HU Hp b Hb) as [(_ & Hnl & _) | (_ & Hc & _)]; [done |].
    by rewrite Hcur in Hc.
Qed.

Lemma Unspent_issue w c t :
  Inv w → Unspent w → task_known t → is_list t = false →
  Unspent {| mem := with_issued (issued (mem w) ++ [c]) (mem w);
             tasks := tasks w ++ [t] |}.
Proof.
  intros HI HU Hk Hl Hp b Hb. simpl in *.
  destruct (HU Hp b Hb) as [(Hid & Hnl & Hc) | (Hid & Hc & Hon)]; [left | right].
  - split; [done |]. split; [| done].
    intros x [Hx | ->%list_elem_of_singleton]%elem_of_app; auto.
  - split; [done |]. split; [done |].
    intros x [Hx | ->%list_elem_of_singleton]%elem_of_app;
      [auto | by apply task_on_other].
Qed.

Lemma Unspent_schemas_derived cur w :
  Inv w → Unspent w →
  Unspent (schemas_derived cur
             {| mem := with_currentDatabase cur (mem w); tasks := tasks w |}).
Proof.
  intros HI HU. unfold schemas_derived. simpl. case_decide as Hid.
  { intros Hp. done. }
  assert (Unspent {| mem := with_currentDatabase cur (mem w); tasks := tasks w |})
    as HU'.
  { intros Hp b Hb. simpl in *.
    destruct (HU Hp b Hb) as [(Hs & Hnl & _) | (Hs & _ & Hon)]; [left | right].
    - split; [done |]. split; [done |]. left.
      rewrite Hs in Hid. by destruct cur.
    - split; [done |]. split; [| done].
      rewrite Hs in Hid. done. }
  case_match; [done | done |].
  apply Unspent_invoke_fetch; [by apply Inv_currentDatabase | done].
Qed.

Lemma Unspent_invoke_resumed t w ts :
  Inv w → Unspent w → t ∈ tasks w → (∀ x, x ∈ ts → x ∈ tasks w) →
  match t with
  | WList _ k | WAdd _ k | WDelete _ k =>
    ∀ r, Unspent (invoke (k r) {| mem := mem w; tasks := ts |})
  end.
Proof.
  intros HI HU Ht Hts.
  assert (Hrest : ∀ m', preload m' = preload (mem w) →
            databaseId (schemasStore m') = databaseId (schemasStore (mem w)) →
            currentDatabase m' = currentDatabase (mem w) →
            Unspent {| mem := m'; tasks := ts |}).
  { intros m' Hp' Hs' Hc' Hp b Hb. simpl in *. rewrite Hp' in Hp.
    rewrite Hs', Hc'.
    destruct (HU Hp b Hb) as [(Hs & Hnl & Hc) | (Hs & Hc & Hon)];
      [left | right]; auto. }
  pose proof (inv_known _ HI t Ht) as Hk.
  destruct Hk as [h d | h database | h schema]; intros r.
  - rewrite invoke_fetch_resumed. intros Hp b Hb. simpl in *. right.
    destruct (HU Hp b Hb) as [(_ & Hnl & _) | (Hs & Hc & Hon)].
    { by specialize (Hnl _ Ht). }
    pose proof (Hon _ Ht) as Hd. inversion Hd as [h' d' Hd' Heq | |]; subst.
    assert (Database.id d = Database.id d') as Heq'.
    { match goal with H : fetch_resumed _ = fetch_resumed _ |- _ =>
        apply (f_equal (λ k, databaseId (schemasStore
                               (run_sync (k (inr [])) (mem w)).1))) in H;
        simpl in H; congruence
      end. }
    split; [| by auto].
    destruct r; [rewrite databaseId_store_failure | simpl]; by rewrite Heq'.
  - rewrite invoke_create_resumed. simpl.
    destruct r as [err | rawSchema]; [by apply Hrest |].
    case_decide; by apply Hrest.
  - rewrite invoke_delete_resumed. simpl.
    destruct r as [err | u]; [by apply Hrest |].
    case_decide; by apply Hrest.
Qed.

Lemma Unspent_step w e : Inv w → Unspent w → Unspent (step w e).
Proof.
  intros HI HU.
  assert (Hresume : ∀ h continue,
    (∀ t p, continue t = Some p →
            match t with WList _ k | WAdd _ k | WDelete _ k => ∃ r, p = k r end) →
    Unspent (resume h w continue)).
  { intros h continue Hcont. unfold resume.
    destruct (take h (tasks w)) as [[t rest]|] eqn:Ht; [| done].
    destruct (take_Some _ _ _ _ Ht) as (Hh & l1 & l2 & Hts & ->).
    destruct (continue t) as [p|] eqn:Hp; [| done].
    assert (t ∈ tasks w) as Hin.
    { rewrite Hts. apply elem_of_app. right. by left. }
    assert (∀ x, x ∈ l1 ++ l2 → x ∈ tasks w) as Hsub.
    { intros x. rewrite Hts, !elem_of_app, elem_of_cons. tauto. }
    pose proof (Unspent_invoke_resumed t w (l1 ++ l2) HI HU Hin Hsub) as Hres.
    specialize (Hcont t p Hp). destruct t; destruct Hcont as [r ->]; apply Hres. }
  destruct e as [| database props | schema | cur | h r | h r | h r]; simpl.
  - by apply Unspent_invoke_fetch.
  - unfold invoke. rewrite run_createSchema.
    apply (Unspent_issue w); [done | done | constructor | done].
  - unfold invoke. rewrite run_deleteSchema.
    apply (Unspent_issue w); [done | done | constructor | done].
  - by apply Unspent_schemas_derived.
  - case_decide; [done |]. apply Hresume.
    intros t p Hp. destruct t; simplify_eq. by eexists.
  - apply Hresume. intros t p Hp. destruct t; simplify_eq. by eexists.
  - apply Hresume. intros t p Hp. destruct t; simplify_eq. by eexists.
Qed.

Lemma Unspent_run w es : Inv w → Unspent w → Unspent (run w es).
Proof.
  revert w. induction es as [|e es IH]; intros w HI HU; [done |].
  simpl. apply IH; [by apply Inv_step | by apply Unspent_step].
Qed.

(** With a list request pending, a change to a database the store is
    not on is not served from the preloaded schemas, if the page
    started on the database they are for. *)
Lemma pending_list_not_preloaded w t cur' :
  Unspent w → t ∈ tasks w → is_list t = true →
  databaseId (schemasStore (mem w)) ≠ Database.id <$> cur' →
  preload (mem w) = false ∨ cur' = None
    ∨ commonData_current_database ≠ Database.id <$> cur'.
Proof.
  intros HU Ht Hl Hne.
  destruct (preload (mem w)) eqn:Hp; [| by left]. right.
  destruct cur' as [d'|]; [right | by left].
  intros Hb. destruct (HU Hp _ Hb) as [(_ & Hnl & _) | (Hs & _ & _)].
  - specialize (Hnl t Ht). congruence.
  - by apply Hne.
Qed.

(** ** Case analysis of a step *)

Lemma resume_cases (P : World → Prop) h w continue :
  P w →
  (∀ t p l1 l2, tasks w = l1 ++ t :: l2 → wait_handle t = h →
     continue t = Some p →
     P (invoke p {| mem := mem w; tasks := l1 ++ l2 |})) →
  P (resume h w continue).
Proof.
  intros Hw Hres. unfold resume.
  destruct (take h (tasks w)) as [[t rest]|] eqn:Ht; [| done].
  destruct (take_Some _ _ _ _ Ht) as (Hh & l1 & l2 & Hts & ->).
  destruct (continue t) as [p|] eqn:Hp; [| done]. by apply (Hres t p).
Qed.

(** What a step does to a world the event loop reaches, case by case. *)
Lemma step_cases (P : World → Prop) w e :
  Inv w →
  P w →
  (e = call_fetchSchemasForCurrentDatabase →
   P (invoke fetchSchemasForCurrentDatabase w)) →
  (∀ database props, e = call_createSchema database props →
     P {| mem := with_issued
                   (issued (mem w)
                    ++ [api_schemas_add (Database.id database)
                          (props_name props) (props_description props)]) (mem w);
          tasks := tasks w
                   ++ [WAdd (length (issued (mem w))) (create_resumed database)] |}) →
  (∀ schema, e = call_deleteSchema schema →
     P {| mem := with_issued (issued (mem w) ++ [schema_delete schema]) (mem w);
          tasks := tasks w
                   ++ [WDelete (length (issued (mem w))) (delete_resumed schema)] |}) →
  (∀ cur, e = set_currentDatabase cur →
     P (schemas_derived cur
          {| mem := with_currentDatabase cur (mem w); tasks := tasks w |})) →
  (∀ h d r l1 l2, e = list_settled h r →
     tasks w = l1 ++ WList h (fetch_resumed d) :: l2 →
     h ∉ cancelled (mem w) →
     P {| mem := with_schemasStore
                   match r with
                   | inr rawSchemas => store_success d rawSchemas
                   | inl err => store_failure d err (schemasStore (mem w))
                   end (mem w);
          tasks := l1 ++ l2 |}) →
  (∀ h database r l1 l2, e = add_settled h r →
     tasks w = l1 ++ WAdd h (create_resumed database) :: l2 →
     P {| mem := mem w; tasks := l1 ++ l2 |}
     ∧ ∀ rawSchema, r = inr rawSchema →
         databaseId (schemasStore (mem w)) = Some (Database.id database) →
         P {| mem := with_schemasStore
                       (store_insert (Schema.new database rawSchema)
                          (schemasStore (mem w))) (mem w);
              tasks := l1 ++ l2 |}) →
  (∀ h schema r l1 l2, e = delete_settled h r →
     tasks w = l1 ++ WDelete h (delete_resumed schema) :: l2 →
     P {| mem := mem w; tasks := l1 ++ l2 |}
     ∧ (r = inr () →
        databaseId (schemasStore (mem w))
        = Some (Database.id (Schema.database schema)) →
        P {| mem := with_schemasStore
                      (store_delete schema (schemasStore (mem w))) (mem w);
             tasks := l1 ++ l2 |})) →
  P (step w e).
Proof.
  intros HI Hw Hfetch Hcreate Hdelete Hderived Hlist Hadd Hdel.
  assert (Hknown : ∀ t l1 l2, tasks w = l1 ++ t :: l2 → task_known t).
  { intros t l1 l2 Hts. apply HI. rewrite Hts. apply elem_of_app. right. by left. }
  destruct e as [| database props | schema | cur | h r | h r | h r]; simpl.
  - by apply Hfetch.
  - unfold invoke. rewrite run_createSchema. by apply Hcreate.
  - unfold invoke. rewrite run_deleteSchema. by apply Hdelete.
  - by apply Hderived.
  - case_decide as Hc; [done |]. apply resume_cases; [done |].
    intros t p l1 l2 Hts Hh Hp. pose proof (Hknown _ _ _ Hts) as Hk.
    destruct Hk; simplify_eq. rewrite invoke_fetch_resumed. simpl in *.
    by eapply Hlist.
  - apply resume_cases; [done |].
    intros t p l1 l2 Hts Hh Hp. pose proof (Hknown _ _ _ Hts) as Hk.
    destruct Hk; simplify_eq. rewrite invoke_create_resumed. simpl.
    destruct (Hadd _ _ r _ _ eq_refl Hts) as [Hsame Hins].
    destruct r as [err | rawSchema]; [by destruct w |].
    case_decide; [by apply Hins | by destruct w].
  - apply resume_cases; [done |].
    intros t p l1 l2 Hts Hh Hp. pose proof (Hknown _ _ _ Hts) as Hk.
    destruct Hk; simplify_eq. rewrite invoke_delete_resumed. simpl.
    destruct (Hdel _ _ r _ _ eq_refl Hts) as [Hsame Hrem].
    destruct r as [err | []]; [by destruct w |].
    case_decide; [by apply Hrem | by destruct w].
Qed.

(** The callback of the derived store, case by case. *)
Lemma schemas_derived_cases (P : World → Prop) cur w :
  (∀ d, cur = Some d → preload (mem w) = true →
        commonData_current_database = Some (Database.id d) →
        databaseId (schemasStore (mem w)) ≠ Some (Database.id d) →
        P {| mem := with_preload false
                      (with_schemasStore (store_success d commonData_schemas) (mem w));
             tasks := tasks w |}) →
  (databaseId (schemasStore (mem w)) ≠ Database.id <$> cur →
   preload (mem w) = false ∨ cur = None
     ∨ commonData_current_database ≠ Database.id <$> cur →
   P {| mem := with_preload false (mem (invoke fetchSchemasForCurrentDatabase w));
        tasks := tasks (invoke fetchSchemasForCurrentDatabase w) |}) →
  (databaseId (schemasStore (mem w)) = Database.id <$> cur →
   (∃ errors, requestStatus (schemasStore (mem w)) = failure errors) →
   P (invoke fetchSchemasForCurrentDatabase w)) →
  (databaseId (schemasStore (mem w)) = Database.id <$> cur →
   (∀ errors, requestStatus (schemasStore (mem w)) ≠ failure errors) →
   P w) →
  P (schemas_derived cur w).
Proof.
  intros Hpre Hfetch Hretry Hsame. unfold schemas_derived.
  case_decide as Hid.
  - destruct cur as [d|]; [| apply Hfetch; auto].
    destruct (preload (mem w)) eqn:Hp; simpl; [| apply Hfetch; auto].
    case_bool_decide as Hcd; [by apply (Hpre d) | apply Hfetch; auto].
  - destruct (requestStatus (schemasStore (mem w))) eqn:Hst;
      [apply Hsame | apply Hsame | apply Hretry]; try done; by eexists.
Qed.

(** ** How the store moves *)

Lemma invoke_fetch_store_moves w :
  store_moves (schemasStore (mem w))
    (schemasStore (mem (invoke fetchSchemasForCurrentDatabase w))).
Proof.
  destruct (currentDatabase (mem w)) as [d|] eqn:Hcur.
  - rewrite (invoke_fetch_Some _ d Hcur). simpl.
    rewrite schemasStore_cancel_request. constructor.
  - rewrite (invoke_fetch_None _ Hcur). constructor.
Qed.

Lemma step_store_moves w e :
  Inv w →
  store_moves (schemasStore (mem w)) (schemasStore (mem (step w e))).
Proof.
  intros HI.
  apply (step_cases (λ w', store_moves (schemasStore (mem w))
                             (schemasStore (mem w')))); try done.
  - constructor.
  - intros _. apply invoke_fetch_store_moves.
  - constructor.
  - constructor.
  - intros cur _.
    apply (schemas_derived_cases
             (λ w', store_moves (schemasStore (mem w)) (schemasStore (mem w'))));
      intros; simpl; try constructor.
    + apply (invoke_fetch_store_moves
               {| mem := with_currentDatabase cur (mem w); tasks := tasks w |}).
    + apply (invoke_fetch_store_moves
               {| mem := with_currentDatabase cur (mem w); tasks := tasks w |}).
  - intros h d r l1 l2 _ _ _. simpl. destruct r; constructor.
  - intros h database r l1 l2 _ _. split; [constructor |].
    intros rawSchema _ Hid. simpl. by constructor.
  - intros h schema r l1 l2 _ _. split; [constructor |].
    intros _ Hid. simpl. by constructor.
Qed.

Lemma store_keyed_empty : store_keyed makeEmptySchemasData.
Proof. intros oid schema. simpl. by rewrite lookup_empty. Qed.

Lemma store_moves_keyed s s' : store_moves s s' → store_keyed s → store_keyed s'.
Proof.
  intros Hmove Hs oid schema.
  destruct Hmove as [s | s | d s | d rawSchemas s | d err s
                     | database rawSchema s Hid | sch s Hid]; simpl.
  - apply Hs.
  - by rewrite lookup_empty.
  - unfold store_processing. case_decide; simpl; [apply Hs | by rewrite lookup_empty].
  - intros Hl. by destruct (schemasMap_lookup_Some _ _ _ _ Hl) as (r & _ & <- & ->).
  - unfold store_failure. case_decide; simpl; [apply Hs | by rewrite lookup_empty].
  - rewrite lookup_insert. case_decide; [by intros [= <-] | apply Hs].
  - rewrite lookup_delete. case_decide; [done | apply Hs].
Qed.

Lemma run_store_keyed w es :
  Inv w → store_keyed (schemasStore (mem w)) →
  store_keyed (schemasStore (mem (run w es))).
Proof.
  revert w. induction es as [|e es IH]; intros w HI Hk; [done |].
  simpl. apply IH; [by apply Inv_step |].
  eapply store_moves_keyed; [by apply step_store_moves | done].
Qed.

(** ** What a fetch call leaves untouched *)


Lemma databaseId_invoke_fetch w :
  databaseId (schemasStore (mem (invoke fetchSchemasForCurrentDatabase w)))
  = Database.id <$> currentDatabase (mem w).
Proof.
  destruct (currentDatabase (mem w)) as [d|] eqn:Hcur.
  - rewrite (invoke_fetch_Some _ d Hcur). simpl. apply databaseId_store_processing.
  - by rewrite (invoke_fetch_None _ Hcur).
Qed.

Lemma currentDatabase_invoke_fetch w :
  currentDatabase (mem (invoke fetchSchemasForCurrentDatabase w))
  = currentDatabase (mem w).
Proof.
  destruct (currentDatabase (mem w)) as [d|] eqn:Hcur.
  - rewrite (invoke_fetch_Some _ d Hcur). simpl.
    by rewrite currentDatabase_cancel_request.
  - rewrite (invoke_fetch_None _ Hcur). simpl.
    by rewrite currentDatabase_cancel_request.
Qed.

Lemma preload_invoke_fetch w :
  preload (mem (invoke fetchSchemasForCurrentDatabase w)) = preload (mem w).
Proof.
  destruct (currentDatabase (mem w)) as [d|] eqn:Hcur.
  - rewrite (invoke_fetch_Some _ d Hcur). simpl. apply preload_cancel_request.
  - rewrite (invoke_fetch_None _ Hcur). simpl. apply preload_cancel_request.
Qed.

Lemma store_follows_selection_aux w cur :
  databaseId (schemasStore (mem (step w (set_currentDatabase cur))))
  = Database.id <$> cur
  ∧ currentDatabase (mem (step w (set_currentDatabase cur))) = cur.
Proof.
  simpl.
  apply (schemas_derived_cases
           (λ w', databaseId (schemasStore (mem w')) = Database.id <$> cur
                  ∧ currentDatabase (mem w') = cur)); simpl.
  - by intros d ->.
  - intros _ _. by rewrite databaseId_invoke_fetch, currentDatabase_invoke_fetch.
  - intros _ _. by rewrite databaseId_invoke_fetch, currentDatabase_invoke_fetch.
  - done.
Qed.

Lemma step_preload_false w e :
  Inv w → preload (mem w) = false → preload (mem (step w e)) = false.
Proof.
  intros HI Hp.
  apply (step_cases (λ w', preload (mem w') = false)); try done.
  - intros _. by rewrite preload_invoke_fetch.
  - intros cur _. apply (schemas_derived_cases (λ w', preload (mem w') = false));
      intros; try done.
    by rewrite preload_invoke_fetch.
Qed.

Lemma run_preload_false w es :
  Inv w → preload (mem w) = false → preload (mem (run w es)) = false.
Proof.
  revert w. induction es as [|e es IH]; intros w HI Hp; [done |].
  simpl. apply IH; [by apply Inv_step | by apply step_preload_false].
Qed.

(** ** The requests in flight, step by step *)

Lemma elem_of_in_flight w t :
  t ∈ in_flight w
  ↔ t ∈ tasks w ∧ is_list t = true ∧ wait_handle t ∉ cancelled (mem w).
Proof. unfold in_flight. rewrite list_elem_of_filter. tauto. Qed.

Lemma in_flight_same w w' :
  cancelled (mem w') = cancelled (mem w) → tasks w' = tasks w →
  in_flight w' = in_flight w.
Proof. unfold in_flight. by intros -> ->. Qed.

Lemma in_flight_snoc_other m ts t :
  is_list t = false →
  in_flight {| mem := m; tasks := ts ++ [t] |}
  = in_flight {| mem := m; tasks := ts |}.
Proof.
  intros Hl. unfold in_flight. simpl.
  rewrite filter_app, filter_cons_False, filter_nil, app_nil_r; [done |].
  intros [Ht _]. congruence.
Qed.

Lemma in_flight_remove_other m l1 t l2 :
  is_list t = false →
  in_flight {| mem := m; tasks := l1 ++ l2 |}
  = in_flight {| mem := m; tasks := l1 ++ t :: l2 |}.
Proof.
  intros Hl. unfold in_flight. simpl.
  rewrite !filter_app, filter_cons_False; [done |].
  intros [Ht _]. congruence.
Qed.

(** Once the reply of the request in flight is taken, none is left. *)
Lemma in_flight_remove_live w m' l1 t l2 :
  Inv w → tasks w = l1 ++ t :: l2 →
  is_list t = true → wait_handle t ∉ cancelled (mem w) →
  cancelled m' = cancelled (mem w) →
  in_flight {| mem := m'; tasks := l1 ++ l2 |} = [].
Proof.
  intros HI Hts Hl Hnc Hc. apply filter_none. simpl. rewrite Hc.
  intros x Hx [Hxl Hxc].
  assert (x ∈ tasks w) as Hxw.
  { rewrite Hts. revert Hx. rewrite !elem_of_app, elem_of_cons. tauto. }
  assert (t ∈ tasks w) as Htw.
  { rewrite Hts. apply elem_of_app. right. by left. }
  assert (wait_handle x = wait_handle t) as Heq.
  { pose proof (inv_latest _ HI x Hxw Hxl Hxc).
    pose proof (inv_latest _ HI t Htw Hl Hnc). congruence. }
  pose proof (inv_nodup _ HI) as Hnd.
  rewrite Hts, fmap_app, fmap_cons in Hnd.
  apply NoDup_app in Hnd as (_ & Hn12 & Hn2).
  apply NoDup_cons in Hn2 as [Hn2 _].
  apply elem_of_app in Hx as [Hx | Hx].
  - apply (Hn12 (wait_handle x)); [apply list_elem_of_fmap; by exists x |].
    rewrite Heq. by left.
  - apply Hn2. rewrite <- Heq. apply list_elem_of_fmap. by exists x.
Qed.

Lemma invoke_fetch_None_in_flight w :
  Inv w → currentDatabase (mem w) = None →
  in_flight (invoke fetchSchemasForCurrentDatabase w) = [].
Proof.
  intros HI Hcur. pose proof (λ t, invoke_fetch_cancels w t HI) as Hcancels.
  rewrite (invoke_fetch_None _ Hcur) in *.
  apply filter_none. intros t Ht [Hl Hnc]. by apply Hnc, Hcancels.
Qed.

Lemma fetch_resumed_id d d' :
  fetch_resumed d = fetch_resumed d' → Database.id d = Database.id d'.
Proof.
  intros H.
  apply (f_equal (λ k, databaseId (schemasStore
                         (run_sync (k (inr [])) (mem (init None))).1))) in H.
  simpl in H. congruence.
Qed.

Lemma task_on_fetch b h d :
  task_on b (WList h (fetch_resumed d)) → Database.id d = b.
Proof.
  intros H. inversion H as [h' d' Hd' [Hh Heq] | |]; subst.
  symmetry. by apply fetch_resumed_id.
Qed.

(** ** The store stays on the selection *)

Lemma Synced_init cur : Synced (init cur).
Proof.
  split; [by left |]. intros t Ht. apply elem_of_in_flight in Ht as [Ht _].
  simpl in Ht. by apply elem_of_nil in Ht.
Qed.

Lemma Synced_invoke_fetch w :
  Inv w → Synced (invoke fetchSchemasForCurrentDatabase w).
Proof.
  intros HI. split.
  - right. by rewrite databaseId_invoke_fetch, currentDatabase_invoke_fetch.
  - intros t. rewrite databaseId_invoke_fetch, currentDatabase_invoke_fetch.
    destruct (currentDatabase (mem w)) as [d|] eqn:Hcur.
    + rewrite (invoke_fetch_in_flight _ d HI Hcur).
      intros ->%list_elem_of_singleton. exists (Database.id d).
      split; [done |]. split; [done |]. by constructor.
    + rewrite (invoke_fetch_None_in_flight _ HI Hcur). by intros ?%elem_of_nil.
Qed.

(** A world as much in step as another with the same store id, the
    same selection, the same cancelled promises and no more tasks. *)
Lemma Synced_sub w w' :
  Synced w →
  databaseId (schemasStore (mem w')) = databaseId (schemasStore (mem w)) →
  currentDatabase (mem w') = currentDatabase (mem w) →
  cancelled (mem w') = cancelled (mem w) →
  (∀ t, t ∈ tasks w' → is_list t = true → t ∈ tasks w) →
  Synced w'.
Proof.
  intros [Hid Hfl] Hs Hc Hcn Hts. split; rewrite Hs, Hc; [done |].
  intros t (Ht & Hl & Hnc)%elem_of_in_flight. apply Hfl, elem_of_in_flight.
  rewrite <- Hcn. auto.
Qed.

Lemma Synced_step w e :
  Inv w → Unspent w → Synced w → Synced (step w e).
Proof.
  intros HI HU HS.
  assert (Hrest : ∀ l1 (t : Task) l2, tasks w = l1 ++ t :: l2 →
            ∀ x, x ∈ l1 ++ l2 → is_list x = true → x ∈ tasks w).
  { intros l1 t l2 Hts x Hx _. rewrite Hts. revert Hx.
    rewrite !elem_of_app, elem_of_cons. tauto. }
  apply (step_cases Synced); try done.
  - intros _. by apply Synced_invoke_fetch.
  - intros database props _. apply (Synced_sub w); try done. simpl.
    intros t [Ht | ->%list_elem_of_singleton]%elem_of_app; [done | done].
  - intros schema _. apply (Synced_sub w); try done. simpl.
    intros t [Ht | ->%list_elem_of_singleton]%elem_of_app; [done | done].
  - intros cur _.
    pose proof (Inv_currentDatabase w cur HI) as HI0.
    apply (schemas_derived_cases Synced); simpl.
    + intros d -> Hp Hcd Hne. split; [by right |]. simpl.
      intros t (Ht & Hl & Hnc)%elem_of_in_flight. simpl in *. exfalso.
      destruct (HU Hp _ Hcd) as [(_ & Hnl & _) | (Hs & _ & _)].
      * specialize (Hnl t Ht). congruence.
      * by apply Hne.
    + intros _ _.
      apply (Synced_sub (invoke fetchSchemasForCurrentDatabase
               {| mem := with_currentDatabase cur (mem w); tasks := tasks w |}));
        try done. by apply Synced_invoke_fetch.
    + intros _ _. by apply Synced_invoke_fetch.
    + intros Hid _. split; [by right |]. simpl.
      intros t Ht. destruct HS as [_ Hfl].
      destruct (Hfl t) as (b & Hb & _ & Hon).
      { apply elem_of_in_flight. by apply elem_of_in_flight in Ht. }
      exists b. repeat split; [done | congruence | done].
  - intros h d r l1 l2 _ Hts Hnc.
    assert (WList h (fetch_resumed d) ∈ in_flight w) as Hlive.
    { apply elem_of_in_flight. split; [| done].
      rewrite Hts. apply elem_of_app. right. by left. }
    destruct HS as [Hid Hfl].
    destruct (Hfl _ Hlive) as (b & Hb & Hc & Hon).
    apply task_on_fetch in Hon as Hd.
    assert (databaseId
              match r with
              | inl err => store_failure d err (schemasStore (mem w))
              | inr rawSchemas => store_success d rawSchemas
              end = Some b) as Hnew.
    { destruct r; [rewrite databaseId_store_failure | simpl]; by rewrite Hd. }
    split; simpl; rewrite Hnew; [right; by rewrite Hc |].
    intros t (Ht & Hl & Hc')%elem_of_in_flight. simpl in *.
    destruct (Hfl t) as (b' & Hb' & _ & Hon').
    { apply elem_of_in_flight. eauto using Hrest. }
    exists b. repeat split; [done |]. congruence.
  - intros h database r l1 l2 _ Hts. split.
    + apply (Synced_sub w); try done. simpl. by apply Hrest with (t := WAdd h (create_resumed database)).
    + intros rawSchema _ Hid. apply (Synced_sub w); try done. simpl.
      by apply Hrest with (t := WAdd h (create_resumed database)).
  - intros h schema r l1 l2 _ Hts. split.
    + apply (Synced_sub w); try done. simpl.
      by apply Hrest with (t := WDelete h (delete_resumed schema)).
    + intros _ Hid. apply (Synced_sub w); try done. simpl.
      by apply Hrest with (t := WDelete h (delete_resumed schema)).
Qed.

Lemma Synced_run w es :
  Inv w → Unspent w → Synced w → Synced (run w es).
Proof.
  revert w. induction es as [|e es IH]; intros w HI HU HS; [done |].
  simpl. apply IH; [by apply Inv_step | by apply Unspent_step |].
  by apply Synced_step.
Qed.

(** ** The status and the request in flight *)

Lemma requestStatus_store_processing d s :
  requestStatus (store_processing d s) = processing.
Proof. unfold store_processing. by case_decide. Qed.

Lemma requestStatus_store_failure d err s :
  requestStatus (store_failure d err s) = failure [getErrorMessage err].
Proof. unfold store_failure. by case_decide. Qed.

Lemma Busy_same w w' :
  Busy w →
  requestStatus (schemasStore (mem w')) = requestStatus (schemasStore (mem w)) →
  in_flight w' = in_flight w →
  Busy w'.
Proof. unfold Busy. by intros HB -> ->. Qed.

Lemma Shown_same w w' :
  Shown w →
  requestStatus (schemasStore (mem w')) = requestStatus (schemasStore (mem w)) →
  in_flight w' = in_flight w →
  Shown w'.
Proof. unfold Shown. by intros HB -> ->. Qed.

Lemma Busy_invoke_fetch w :
  Inv w → Busy (invoke fetchSchemasForCurrentDatabase w).
Proof.
  intros HI. destruct (currentDatabase (mem w)) as [d|] eqn:Hcur.
  - intros _. by rewrite (invoke_fetch_in_flight _ d HI Hcur).
  - rewrite (invoke_fetch_None _ Hcur). by intros [=].
Qed.

Lemma Shown_invoke_fetch w :
  Inv w → Shown (invoke fetchSchemasForCurrentDatabase w).
Proof.
  intros HI. destruct (currentDatabase (mem w)) as [d|] eqn:Hcur.
  - intros _. rewrite (invoke_fetch_Some _ d Hcur). simpl.
    apply requestStatus_store_processing.
  - intros Hne. by rewrite (invoke_fetch_None_in_flight _ HI Hcur) in Hne.
Qed.

Lemma Busy_step w e : Inv w → Busy w → Busy (step w e).
Proof.
  intros HI HB.
  apply (step_cases Busy); try done.
  - intros _. by apply Busy_invoke_fetch.
  - intros database props _. apply (Busy_same w); [done | done |].
    by rewrite in_flight_snoc_other.
  - intros schema _. apply (Busy_same w); [done | done |].
    by rewrite in_flight_snoc_other.
  - intros cur _.
    pose proof (Inv_currentDatabase w cur HI) as HI0.
    apply (schemas_derived_cases Busy).
    + by intros d _ _ _ _ [=].
    + intros _ _.
      apply (Busy_same (invoke fetchSchemasForCurrentDatabase
               {| mem := with_currentDatabase cur (mem w); tasks := tasks w |}));
        [by apply Busy_invoke_fetch | done | done].
    + intros _ _. by apply Busy_invoke_fetch.
    + intros _ _. by apply (Busy_same w).
  - intros h d r l1 l2 _ _ _. unfold Busy. simpl.
    destruct r; [by rewrite requestStatus_store_failure | done].
  - intros h database r l1 l2 _ Hts.
    assert (in_flight {| mem := mem w; tasks := l1 ++ l2 |} = in_flight w) as Hfl.
    { rewrite (in_flight_remove_other _ _ (WAdd h (create_resumed database))) by done.
      by apply in_flight_same. }
    split; [by apply (Busy_same w) |].
    intros rawSchema _ _. by apply (Busy_same w).
  - intros h schema r l1 l2 _ Hts.
    assert (in_flight {| mem := mem w; tasks := l1 ++ l2 |} = in_flight w) as Hfl.
    { rewrite (in_flight_remove_other _ _ (WDelete h (delete_resumed schema))) by done.
      by apply in_flight_same. }
    split; [by apply (Busy_same w) |].
    intros _ _. by apply (Busy_same w).
Qed.

Lemma Busy_run w es : Inv w → Busy w → Busy (run w es).
Proof.
  revert w. induction es as [|e es IH]; intros w HI HB; [done |].
  simpl. apply IH; [by apply Inv_step | by apply Busy_step].
Qed.

Lemma Shown_step w e : Inv w → Unspent w → Shown w → Shown (step w e).
Proof.
  intros HI HU HS.
  apply (step_cases Shown); try done.
  - intros _. by apply Shown_invoke_fetch.
  - intros database props _. apply (Shown_same w); [done | done |].
    by rewrite in_flight_snoc_other.
  - intros schema _. apply (Shown_same w); [done | done |].
    by rewrite in_flight_snoc_other.
  - intros cur _.
    pose proof (Inv_currentDatabase w cur HI) as HI0.
    apply (schemas_derived_cases Shown).
    + intros d _ Hp Hcd Hne Hfl. exfalso. simpl in *.
      destruct (in_flight _) as [|t ts] eqn:Ht in Hfl; [done |].
      assert (t ∈ in_flight w) as (Htw & Hl & _)%elem_of_in_flight.
      { erewrite <- in_flight_same; [rewrite Ht; by left | done | done]. }
      destruct (HU Hp _ Hcd) as [(_ & Hnl & _) | (Hs & _ & _)].
      * specialize (Hnl t Htw). congruence.
      * by apply Hne.
    + intros _ _.
      apply (Shown_same (invoke fetchSchemasForCurrentDatabase
               {| mem := with_currentDatabase cur (mem w); tasks := tasks w |}));
        [by apply Shown_invoke_fetch | done | done].
    + intros _ _. by apply Shown_invoke_fetch.
    + intros _ _. by apply (Shown_same w).
  - intros h d r l1 l2 _ Hts Hnc Hfl. exfalso. apply Hfl.
    by apply (in_flight_remove_live w _ l1 (WList h (fetch_resumed d)) l2).
  - intros h database r l1 l2 _ Hts.
    assert (in_flight {| mem := mem w; tasks := l1 ++ l2 |} = in_flight w) as Hfl.
    { rewrite (in_flight_remove_other _ _ (WAdd h (create_resumed database))) by done.
      by apply in_flight_same. }
    split; [by apply (Shown_same w) |].
    intros rawSchema _ _. by apply (Shown_same w).
  - intros h schema r l1 l2 _ Hts.
    assert (in_flight {| mem := mem w; tasks := l1 ++ l2 |} = in_flight w) as Hfl.
    { rewrite (in_flight_remove_other _ _ (WDelete h (delete_resumed schema))) by done.
      by apply in_flight_same. }
    split; [by apply (Shown_same w) |].
    intros _ _. by apply (Shown_same w).
Qed.

Lemma Shown_run w es : Inv w → Unspent w → Shown w → Shown (run w es).
Proof.
  revert w. induction es as [|e es IH]; intros w HI HU HS; [done |].
  simpl. apply IH; [by apply Inv_step | by apply Unspent_step |].
  by apply Shown_step.
Qed.

(** ** Delivering a reply *)

Lemma take_elem ts t :
  NoDup (wait_handle <$> ts) → t ∈ ts →
  ∃ l1 l2, ts = l1 ++ t :: l2 ∧ take (wait_handle t) ts = Some (t, l1 ++ l2).
Proof.
  induction ts as [|x ts IH]; intros Hnd Ht; [by apply elem_of_nil in Ht |].
  rewrite fmap_cons in Hnd. apply NoDup_cons in Hnd as [Hx Hnd].
  apply elem_of_cons in Ht as [-> | Ht].
  - exists [], ts. simpl. by rewrite decide_True.
  - destruct (IH Hnd Ht) as (l1 & l2 & -> & Htake).
    exists (x :: l1), l2. split; [done |]. simpl.
    rewrite decide_False, Htake; [done |].
    intros Heq. apply Hx. rewrite Heq. apply list_elem_of_fmap. by exists t.
Qed.

(** The reply to a list request awaited and not cancelled reaches the
    fetch that waits for it. *)
Lemma step_list_settled_live w h d r :
  Inv w → WList h (fetch_resumed d) ∈ tasks w → h ∉ cancelled (mem w) →
  ∃ l1 l2,
    tasks w = l1 ++ WList h (fetch_resumed d) :: l2
    ∧ step w (list_settled h r)
      = {| mem := with_schemasStore
                    match r with
                    | inr rawSchemas => store_success d rawSchemas
                    | inl err => store_failure d err (schemasStore (mem w))
                    end (mem w);
           tasks := l1 ++ l2 |}.
Proof.
  intros HI Ht Hnc.
  destruct (take_elem _ _ (inv_nodup _ HI) Ht) as (l1 & l2 & Hts & Htake).
  exists l1, l2. split; [done |]. simpl in *.
  rewrite decide_False by done. unfold resume. rewrite Htake.
  by rewrite invoke_fetch_resumed.
Qed.

(** ** Invariants of the store alone *)

Lemma run_store_invariant (P : SchemaStoreData → Prop) w es :
  (∀ s s', store_moves s s' → P s → P s') →
  Inv w → P (schemasStore (mem w)) → P (schemasStore (mem (run w es))).
Proof.
  intros HP. revert w. induction es as [|e es IH]; intros w HI Hw; [done |].
  simpl. apply IH; [by apply Inv_step |].
  eapply HP; [by apply step_store_moves | done].
Qed.

Lemma store_moves_off s s' :
  store_moves s s' →
  (databaseId s = None → s = makeEmptySchemasData) →
  databaseId s' = None → s' = makeEmptySchemasData.
Proof.
  intros Hmove Hs.
  destruct Hmove as [s | s | d s | d rawSchemas s | d err s
                     | database rawSchema s Hid | sch s Hid]; simpl; try done.
  - by rewrite databaseId_store_processing.
  - by rewrite databaseId_store_failure.
  - by rewrite Hid.
  - by rewrite Hid.
Qed.

(** A store on no database has no list request in flight. *)
Lemma step_off_idle w e :
  Inv w →
  (databaseId (schemasStore (mem w)) = None → in_flight w = []) →
  databaseId (schemasStore (mem (step w e))) = None → in_flight (step w e) = [].
Proof.
  intros HI Hw.
  apply (step_cases (λ w', databaseId (schemasStore (mem w')) = None →
                           in_flight w' = [])); try done.
  - intros _. rewrite databaseId_invoke_fetch.
    destruct (currentDatabase (mem w)) eqn:Hcur; [done |].
    intros _. by apply invoke_fetch_None_in_flight.
  - intros database props _ Hid. simpl in *. rewrite in_flight_snoc_other by done.
    rewrite <- (Hw Hid). by apply in_flight_same.
  - intros schema _ Hid. simpl in *. rewrite in_flight_snoc_other by done.
    rewrite <- (Hw Hid). by apply in_flight_same.
  - intros cur _.
    pose proof (Inv_currentDatabase w cur HI) as HI0.
    apply (schemas_derived_cases
             (λ w', databaseId (schemasStore (mem w')) = None → in_flight w' = []));
      simpl.
    + done.
    + intros _ _. rewrite databaseId_invoke_fetch. simpl.
      destruct cur; [done |]. intros _.
      erewrite in_flight_same;
        [by apply (invoke_fetch_None_in_flight _ HI0) | done | done].
    + intros _ _. rewrite databaseId_invoke_fetch. simpl.
      destruct cur; [done |]. intros _.
      by apply (invoke_fetch_None_in_flight _ HI0).
    + intros _ _ Hid. rewrite <- (Hw Hid). by apply in_flight_same.
  - intros h d r l1 l2 _ _ _. simpl.
    destruct r; [by rewrite databaseId_store_failure | done].
  - intros h database r l1 l2 _ Hts.
    assert (in_flight {| mem := mem w; tasks := l1 ++ l2 |} = in_flight w) as Hfl.
    { rewrite (in_flight_remove_other _ _ (WAdd h (create_resumed database))) by done.
      by apply in_flight_same. }
    split; [intros Hid; rewrite Hfl; by apply Hw |].
    intros rawSchema _ Hid. simpl. by rewrite Hid.
  - intros h schema r l1 l2 _ Hts.
    assert (in_flight {| mem := mem w; tasks := l1 ++ l2 |} = in_flight w) as Hfl.
    { rewrite (in_flight_remove_other _ _ (WDelete h (delete_resumed schema))) by done.
      by apply in_flight_same. }
    split; [intros Hid; rewrite Hfl; by apply Hw |].
    intros _ Hid. simpl. by rewrite Hid.
Qed.

Lemma run_off_idle w es :
  Inv w →
  (databaseId (schemasStore (mem w)) = None → in_flight w = []) →
  databaseId (schemasStore (mem (run w es))) = None → in_flight (run w es) = [].
Proof.
  revert w. induction es as [|e es IH]; intros w HI Hw; [done |].
  simpl. apply IH; [by apply Inv_step | by apply step_off_idle].
Qed.

(** ** From a call to its reply *)

Lemma tasks_invoke_fetch w t :
  t ∈ tasks w → t ∈ tasks (invoke fetchSchemasForCurrentDatabase w).
Proof.
  intros Ht. destruct (currentDatabase (mem w)) as [d|] eqn:Hcur.
  - rewrite (invoke_fetch_Some _ d Hcur). simpl. apply elem_of_app. by left.
  - by rewrite (invoke_fetch_None _ Hcur).
Qed.

(** A task waits until the reply to its promise arrives. *)
Lemma step_keeps_task w e t :
  Inv w → t ∈ tasks w → settles (wait_handle t) e = false →
  t ∈ tasks (step w e).
Proof.
  intros HI Ht He.
  assert (Hrest : ∀ l1 (x : Task) l2, tasks w = l1 ++ x :: l2 →
            wait_handle x ≠ wait_handle t → t ∈ l1 ++ l2).
  { intros l1 x l2 Hts Hne. rewrite Hts in Ht. revert Ht.
    rewrite !elem_of_app, elem_of_cons. intros [? | [-> | ?]]; auto. done. }
  apply (step_cases (λ w', t ∈ tasks w')); try done.
  - intros _. by apply tasks_invoke_fetch.
  - intros database props _. simpl. apply elem_of_app. by left.
  - intros schema _. simpl. apply elem_of_app. by left.
  - intros cur _. apply (schemas_derived_cases (λ w', t ∈ tasks w'));
      intros; simpl; try done;
      by apply (tasks_invoke_fetch
                  {| mem := with_currentDatabase cur (mem w); tasks := tasks w |}).
  - intros h d r l1 l2 -> Hts _. simpl in *.
    apply (Hrest _ _ _ Hts). simpl. by apply bool_decide_eq_false in He.
  - intros h database r l1 l2 -> Hts. simpl in *.
    assert (t ∈ l1 ++ l2).
    { apply (Hrest _ _ _ Hts). simpl. by apply bool_decide_eq_false in He. }
    by split.
  - intros h schema r l1 l2 -> Hts. simpl in *.
    assert (t ∈ l1 ++ l2).
    { apply (Hrest _ _ _ Hts). simpl. by apply bool_decide_eq_false in He. }
    by split.
Qed.

Lemma run_keeps_task w es t :
  Inv w → t ∈ tasks w →
  Forall (λ e, settles (wait_handle t) e = false) es →
  t ∈ tasks (run w es).
Proof.
  revert w. induction es as [|e es IH]; intros w HI Ht Hes; [done |].
  apply Forall_cons in Hes as [He Hes]. simpl.
  apply IH; [by apply Inv_step | by apply step_keeps_task | done].
Qed.

Lemma step_add_settled w h database r :
  Inv w → WAdd h (create_resumed database) ∈ tasks w →
  ∃ l1 l2,
    tasks w = l1 ++ WAdd h (create_resumed database) :: l2
    ∧ step w (add_settled h r)
      = {| mem := match r with
                  | inr rawSchema =>
                    if decide (databaseId (schemasStore (mem w))
                               = Some (Database.id database))
                    then with_schemasStore
                           (store_insert (Schema.new database rawSchema)
                              (schemasStore (mem w))) (mem w)
                    else mem w
                  | inl _ => mem w
                  end;
           tasks := l1 ++ l2 |}.
Proof.
  intros HI Ht.
  destruct (take_elem _ _ (inv_nodup _ HI) Ht) as (l1 & l2 & Hts & Htake).
  exists l1, l2. split; [done |]. simpl in *.
  unfold resume. rewrite Htake. by rewrite invoke_create_resumed.
Qed.

Lemma step_delete_settled w h schema r :
  Inv w → WDelete h (delete_resumed schema) ∈ tasks w →
  ∃ l1 l2,
    tasks w = l1 ++ WDelete h (delete_resumed schema) :: l2
    ∧ step w (delete_settled h r)
      = {| mem := match r with
                  | inr _ =>
                    if decide (databaseId (schemasStore (mem w))
                               = Some (Database.id (Schema.database schema)))
                    then with_schemasStore
                           (store_delete schema (schemasStore (mem w))) (mem w)
                    else mem w
                  | inl _ => mem w
                  end;
           tasks := l1 ++ l2 |}.
Proof.
  intros HI Ht.
  destruct (take_elem _ _ (inv_nodup _ HI) Ht) as (l1 & l2 & Hts & Htake).
  exists l1, l2. split; [done |]. simpl in *.
  unfold resume. rewrite Htake. by rewrite invoke_delete_resumed.
Qed.

(** The fetch called in [w] still waits for promise number
    [length (issued (mem w))] after events that do not settle it. *)
Lemma fetch_waits w d es :
  Inv w → currentDatabase (mem w) = Some d →
  Forall (λ e, settles (length (issued (mem w))) e = false) es →
  let w2 := run (step w call_fetchSchemasForCurrentDatabase) es in
  Inv w2 ∧ WList (length (issued (mem w))) (fetch_resumed d) ∈ tasks w2.
Proof.
  intros HI Hcur Hes w2.
  assert (Inv (step w call_fetchSchemasForCurrentDatabase)) as HI1
    by by apply Inv_step.
  split; [by apply Inv_run |].
  apply run_keeps_task; [done | | done].
  simpl. rewrite (invoke_fetch_Some _ d Hcur). simpl.
  apply elem_of_app. right. by left.
Qed.

Lemma createSchema_waits w database props es :
  Inv w →
  Forall (λ e, settles (length (issued (mem w))) e = false) es →
  let w2 := run (step w (call_createSchema database props)) es in
  Inv w2 ∧ WAdd (length (issued (mem w))) (create_resumed database) ∈ tasks w2.
Proof.
  intros HI Hes w2.
  assert (Inv (step w (call_createSchema database props))) as HI1
    by by apply Inv_step.
  split; [by apply Inv_run |].
  apply run_keeps_task; [done | | done].
  change (step w (call_createSchema database props))
    with (invoke (createSchema database props) w).
  unfold invoke. rewrite run_createSchema. simpl.
  apply elem_of_app. right. by left.
Qed.

Lemma deleteSchema_waits w schema es :
  Inv w →
  Forall (λ e, settles (length (issued (mem w))) e = false) es →
  let w2 := run (step w (call_deleteSchema schema)) es in
  Inv w2 ∧ WDelete (length (issued (mem w))) (delete_resumed schema) ∈ tasks w2.
Proof.
  intros HI Hes w2.
  assert (Inv (step w (call_deleteSchema schema))) as HI1
    by by apply Inv_step.
  split; [by apply Inv_run |].
  apply run_keeps_task; [done | | done].
  change (step w (call_deleteSchema schema))
    with (invoke (deleteSchema schema) w).
  unfold invoke. rewrite run_deleteSchema. simpl.
  apply elem_of_app. right. by left.
Qed.

(** The store after the reply to the fetch called in [w]. *)
Lemma fetch_replied w d es r :
  Inv w → currentDatabase (mem w) = Some d →
  Forall (λ e, settles (length (issued (mem w))) e = false) es →
  let w2 := run (step w call_fetchSchemasForCurrentDatabase) es in
  length (issued (mem w)) ∉ cancelled (mem w2) →
  schemasStore (mem (step w2 (list_settled (length (issued (mem w))) r)))
  = match r with
    | inr rawSchemas => store_success d rawSchemas
    | inl err => store_failure d err (schemasStore (mem w2))
    end.
Proof.
  intros HI Hcur Hes w2 Hnc.
  destruct (fetch_waits w d es HI Hcur Hes) as [HI2 Ht].
  destruct (step_list_settled_live _ _ d r HI2 Ht Hnc) as (l1 & l2 & _ & Hstep).
  unfold w2. by rewrite Hstep.
Qed.

(** The variables after the reply to the [createSchema] called in [w]. *)
Lemma createSchema_replied w database props es r :
  Inv w →
  Forall (λ e, settles (length (issued (mem w))) e = false) es →
  let w2 := run (step w (call_createSchema database props)) es in
  mem (step w2 (add_settled (length (issued (mem w))) r))
  = match r with
    | inr rawSchema =>
      if decide (databaseId (schemasStore (mem w2)) = Some (Database.id database))
      then with_schemasStore
             (store_insert (Schema.new database rawSchema) (schemasStore (mem w2)))
             (mem w2)
      else mem w2
    | inl _ => mem w2
    end.
Proof.
  intros HI Hes w2.
  destruct (createSchema_waits w database props es HI Hes) as [HI2 Ht].
  destruct (step_add_settled _ _ database r HI2 Ht) as (l1 & l2 & _ & Hstep).
  unfold w2. by rewrite Hstep.
Qed.

Lemma deleteSchema_replied w schema es r :
  Inv w →
  Forall (λ e, settles (length (issued (mem w))) e = false) es →
  let w2 := run (step w (call_deleteSchema schema)) es in
  mem (step w2 (delete_settled (length (issued (mem w))) r))
  = match r with
    | inr _ =>
      if decide (databaseId (schemasStore (mem w2))
                 = Some (Database.id (Schema.database schema)))
      then with_schemasStore (store_delete schema (schemasStore (mem w2))) (mem w2)
      else mem w2
    | inl _ => mem w2
    end.
Proof.
  intros HI Hes w2.
  destruct (deleteSchema_waits w schema es HI Hes) as [HI2 Ht].
  destruct (step_delete_settled _ _ schema r HI2 Ht) as (l1 & l2 & _ & Hstep).
  unfold w2. by rewrite Hstep.
Qed.

Lemma fetch_not_cancelled w d :
  Inv w → currentDatabase (mem w) = Some d →
  length (issued (mem w))
  ∉ cancelled (mem (step w call_fetchSchemasForCurrentDatabase)).
Proof.
  intros HI Hcur. simpl. rewrite (invoke_fetch_Some _ d Hcur). simpl.
  intros [Hr | Hc]%cancelled_cancel_request.
  - apply (inv_request _ HI) in Hr. lia.
  - apply (inv_cancelled _ HI) in Hc. lia.
Qed.


(** The store after a [createSchema] answered at once, and after a
    [deleteSchema] answered at once. *)
Lemma createSchema_answered w database props rawSchema :
  Inv w →
  let w' := run w [call_createSchema database props;
                   add_settled (length (issued (mem w))) (inr rawSchema)] in
  Inv w'
  ∧ length (issued (mem w')) = S (length (issued (mem w)))
  ∧ schemasStore (mem w')
    = if decide (databaseId (schemasStore (mem w)) = Some (Database.id database))
      then store_insert (Schema.new database rawSchema) (schemasStore (mem w))
      else schemasStore (mem w).
Proof.
  intros HI w'.
  assert (Hmem := createSchema_replied w database props [] (inr rawSchema) HI
                    (Forall_nil_2 _)).
  change (mem w' = if decide (databaseId (schemasStore (mem w))
                              = Some (Database.id database))
                   then with_schemasStore
                          (store_insert (Schema.new database rawSchema)
                             (schemasStore (mem w)))
                          (mem (step w (call_createSchema database props)))
                   else mem (step w (call_createSchema database props)))
    in Hmem.
  split; [by apply Inv_run |].
  rewrite Hmem.
  split; case_decide; simpl; rewrite ?length_app; simpl; try done; lia.
Qed.

Lemma deleteSchema_answered w schema :
  Inv w →
  let w' := run w [call_deleteSchema schema;
                   delete_settled (length (issued (mem w))) (inr ())] in
  Inv w'
  ∧ length (issued (mem w')) = S (length (issued (mem w)))
  ∧ schemasStore (mem w')
    = if decide (databaseId (schemasStore (mem w))
                 = Some (Database.id (Schema.database schema)))
      then store_delete schema (schemasStore (mem w))
      else schemasStore (mem w).
Proof.
  intros HI w'.
  assert (Hmem := deleteSchema_replied w schema [] (inr ()) HI (Forall_nil_2 _)).
  change (mem w' = if decide (databaseId (schemasStore (mem w))
                              = Some (Database.id (Schema.database schema)))
                   then with_schemasStore
                          (store_delete schema (schemasStore (mem w)))
                          (mem (step w (call_deleteSchema schema)))
                   else mem (step w (call_deleteSchema schema)))
    in Hmem.
  split; [by apply Inv_run |].
  rewrite Hmem.
  split; case_decide; simpl; rewrite ?length_app; simpl; try done; lia.
Qed.

(** ** Where a failure comes from *)

Lemma Listed_init cur : Listed (init cur).
Proof. intros h d Ht. by apply elem_of_nil in Ht. Qed.

Lemma Listed_invoke_fetch w :
  Listed w → Listed (invoke fetchSchemasForCurrentDatabase w).
Proof.
  intros HL h d0. destruct (currentDatabase (mem w)) as [d|] eqn:Hcur.
  - rewrite (invoke_fetch_Some _ d Hcur). simpl.
    intros [Ht | Ht%list_elem_of_singleton]%elem_of_app.
    + by apply lookup_app_l_Some, HL.
    + injection Ht as -> Hk. apply fetch_resumed_id in Hk. rewrite Hk.
      by apply list_lookup_middle.
  - rewrite (invoke_fetch_None _ Hcur). simpl. rewrite issued_cancel_request.
    apply HL.
Qed.

Lemma Listed_step w e : Inv w → Listed w → Listed (step w e).
Proof.
  intros HI HL.
  assert (Hrest : ∀ l1 (x : Task) l2 m, tasks w = l1 ++ x :: l2 →
            issued m = issued (mem w) →
            Listed {| mem := m; tasks := l1 ++ l2 |}).
  { intros l1 x l2 m Hts Hm h d Ht. simpl in *. rewrite Hm. apply HL.
    rewrite Hts. revert Ht. rewrite !elem_of_app, elem_of_cons. tauto. }
  apply (step_cases Listed); try done.
  - intros _. by apply Listed_invoke_fetch.
  - intros database props _ h d. simpl.
    intros [Ht | Ht%list_elem_of_singleton]%elem_of_app; [| done].
    by apply lookup_app_l_Some, HL.
  - intros schema _ h d. simpl.
    intros [Ht | Ht%list_elem_of_singleton]%elem_of_app; [| done].
    by apply lookup_app_l_Some, HL.
  - intros cur _. apply (schemas_derived_cases Listed); intros; try done;
      by apply (Listed_invoke_fetch
                  {| mem := with_currentDatabase cur (mem w); tasks := tasks w |}).
  - intros h d r l1 l2 _ Hts _. by apply (Hrest _ _ _ _ Hts).
  - intros h database r l1 l2 _ Hts. split; [by apply (Hrest _ _ _ _ Hts) |].
    intros rawSchema _ _. by apply (Hrest _ _ _ _ Hts).
  - intros h schema r l1 l2 _ Hts. split; [by apply (Hrest _ _ _ _ Hts) |].
    intros _ _. by apply (Hrest _ _ _ _ Hts).
Qed.

Lemma Listed_run w es : Inv w → Listed w → Listed (run w es).
Proof.
  revert w. induction es as [|e es IH]; intros w HI HL; [done |].
  simpl. apply IH; [by apply Inv_step | by apply Listed_step].
Qed.

(** A step makes the status [failure] only by delivering the rejection
    of a list request in flight. *)
Lemma step_failure w e errors :
  Inv w → Listed w →
  requestStatus (schemasStore (mem (step w e))) = failure errors →
  requestStatus (schemasStore (mem w)) = failure errors
  ∨ ∃ h d err,
      e = list_settled h (inl err)
      ∧ errors = [getErrorMessage err]
      ∧ issued (mem w) !! h = Some (api_schemas_list (Database.id d))
      ∧ WList h (fetch_resumed d) ∈ tasks w
      ∧ h ∉ cancelled (mem w).
Proof.
  intros HI HL.
  assert (Hfetch : ∀ w0,
    requestStatus (schemasStore (mem (invoke fetchSchemasForCurrentDatabase w0)))
    ≠ failure errors).
  { intros w0. destruct (currentDatabase (mem w0)) as [d|] eqn:Hcur.
    - rewrite (invoke_fetch_Some _ d Hcur). simpl.
      by rewrite requestStatus_store_processing.
    - by rewrite (invoke_fetch_None _ Hcur). }
  set (Q := requestStatus (schemasStore (mem w)) = failure errors
            ∨ ∃ h d err,
                e = list_settled h (inl err)
                ∧ errors = [getErrorMessage err]
                ∧ issued (mem w) !! h = Some (api_schemas_list (Database.id d))
                ∧ WList h (fetch_resumed d) ∈ tasks w
                ∧ h ∉ cancelled (mem w)).
  apply (step_cases
           (λ w', requestStatus (schemasStore (mem w')) = failure errors → Q));
    try done.
  - by left.
  - intros _ Hst. by destruct (Hfetch w).
  - intros database props _. by left.
  - intros schema _. by left.
  - intros cur _.
    apply (schemas_derived_cases
             (λ w', requestStatus (schemasStore (mem w')) = failure errors → Q));
      intros; simpl in *; try done.
    + by destruct (Hfetch {| mem := with_currentDatabase cur (mem w);
                             tasks := tasks w |}).
    + by destruct (Hfetch {| mem := with_currentDatabase cur (mem w);
                             tasks := tasks w |}).
    + by left.
  - intros h d r l1 l2 -> Hts Hnc. simpl. destruct r as [err | rawSchemas]; [| done].
    rewrite requestStatus_store_failure. intros [= <-]. right.
    assert (WList h (fetch_resumed d) ∈ tasks w) as Ht.
    { rewrite Hts. apply elem_of_app. right. by left. }
    exists h, d, err. repeat split; try done. by apply HL.
  - intros h database r l1 l2 _ _. split; [by left |]. intros; by left.
  - intros h schema r l1 l2 _ _. split; [by left |]. intros; by left.
Qed.

(** ** What holds along every run *)

(** C4.  In every world the event loop reaches, at most one list
    request is in flight, and a call of [fetchSchemasForCurrentDatabase]
    leaves every pending list request cancelled.  The derived store
    makes that call when the current database changes to one the store
    is not on, unless it serves the change from the preloaded schemas;
    with a list request pending it never does so if the page started
    on the database it was preloaded for, or on none.  The reply to a
    list request that was pending at the change then changes nothing,
    whenever it arrives. *)
Theorem one_fetch_in_flight cur es :
  let w := run (init cur) es in
  length (in_flight w) ≤ 1
  ∧ (∀ t, t ∈ tasks w → is_list t = true →
       wait_handle t
       ∈ cancelled (mem (step w call_fetchSchemasForCurrentDatabase)))
  ∧ (∀ t cur', t ∈ tasks w → is_list t = true →
       databaseId (schemasStore (mem w)) ≠ Database.id <$> cur' →
       starts_on_preloaded cur ∨ preload (mem w) = false
         ∨ ¬ preloaded_for cur' →
       ∀ es' r,
         let w' := run (step w (set_currentDatabase cur')) es' in
         step w' (list_settled (wait_handle t) r) = w').
Proof.
  intros w. assert (HI : Inv w) by apply Inv_run, Inv_init.
  split; [by apply in_flight_at_most_one |].
  split; [intros t Ht Hl; by apply invoke_fetch_cancels |].
  intros t cur' Ht Hl Hne Hpre es' r w'.
  assert (preload (mem w) = false ∨ cur' = None
          ∨ commonData_current_database ≠ Database.id <$> cur') as Hfetch.
  { destruct Hpre as [Hstart | [Hp | Hnot]]; [| by left |].
    - apply (pending_list_not_preloaded w t); [| done | done | done].
      by apply Unspent_run, Unspent_init; [apply Inv_init |].
    - right. destruct cur' as [d'|]; [right | by left].
      intros Hcd. apply Hnot. by exists d'. }
  apply list_settled_cancelled. unfold w'.
  apply run_cancelled_mono; [by apply Inv_step |].
  simpl. rewrite schemas_derived_fetches; [| done | done]. simpl.
  apply invoke_fetch_cancels; [by apply Inv_currentDatabase | done | done].
Qed.

(** C9.  In every world the event loop reaches, if the status of the
    store is [success] or [processing], every schema of its map is
    owned by the database whose id is the store's [databaseId]. *)
Theorem schemas_belong_to_store_database cur es :
  let s := schemasStore (mem (run (init cur) es)) in
  requestStatus s = success ∨ requestStatus s = processing →
  ∀ oid schema, data s !! oid = Some schema →
    databaseId s = Some (Database.id (Schema.database schema)).
Proof.
  intros s _. apply (inv_store (run (init cur) es)). apply Inv_run, Inv_init.
Qed.

(** C10.  With no database selected, [fetchSchemasForCurrentDatabase]
    returns at once: it has cancelled the promise held in [request],
    has set the store to an empty map with status [success] and no
    [databaseId], and has issued no call.  In a world the event loop
    reaches, no list request is in flight any more and no new task
    waits. *)
Theorem fetch_without_database :
  (∀ m, currentDatabase m = None →
     ∃ m',
       run_sync fetchSchemasForCurrentDatabase m = (m', Returned ())
       ∧ schemasStore m'
         = {| databaseId := None; requestStatus := success; data := ∅ |}
       ∧ issued m' = issued m
       ∧ ∀ h, request m = Some h → h ∈ cancelled m')
  ∧ (∀ cur es,
       let w := run (init cur) es in
       currentDatabase (mem w) = None →
       in_flight (step w call_fetchSchemasForCurrentDatabase) = []
       ∧ tasks (step w call_fetchSchemasForCurrentDatabase) = tasks w).
Proof.
  split.
  - intros m Hcur. eexists. split; [by apply run_fetch_None |]. simpl.
    split; [done |]. split; [apply issued_cancel_request |].
    intros h Hh. apply cancelled_cancel_request. by left.
  - intros cur es w Hcur. assert (HI : Inv w) by apply Inv_run, Inv_init.
    pose proof (invoke_fetch_cancels w) as Hcancels. simpl.
    rewrite (invoke_fetch_None _ Hcur) in *. split; [| done].
    apply filter_none. intros t Ht [Hl Hnc]. by apply Hnc, Hcancels.
Qed.


(** ** From a call to its reply, along every run

    Below, [w] is any world the event loop reaches, [h] is the number
    of calls issued so far, hence the promise of the call made next,
    and [es'] are events, none of them the reply to [h], that happen
    between the call and its reply. *)



(** C5.  [createSchema] issues the add call, with the id of
    [database] and the given name and description, and leaves the
    store as it is.  When the reply [rawSchema] to its promise [h]
    arrives, the schema made of it is put in the map under its oid if
    the store is then on [database]; if it is not, nothing changes. *)
Theorem createSchema_inserts_when_same_database cur es database props es' rawSchema :
  let w := run (init cur) es in
  let h := length (issued (mem w)) in
  let w1 := step w (call_createSchema database props) in
  let w2 := run w1 es' in
  let w3 := step w2 (add_settled h (inr rawSchema)) in
  Forall (λ e, settles h e = false) es' →
  issued (mem w1)
  = issued (mem w) ++ [api_schemas_add (Database.id database)
                         (props_name props) (props_description props)]
  ∧ schemasStore (mem w1) = schemasStore (mem w)
  ∧ (databaseId (schemasStore (mem w2)) = Some (Database.id database) →
     mem w3
     = with_schemasStore
         {| databaseId := databaseId (schemasStore (mem w2));
            requestStatus := requestStatus (schemasStore (mem w2));
            data := <[RawSchema.oid rawSchema := Schema.new database rawSchema]>
                      (data (schemasStore (mem w2))) |} (mem w2))
  ∧ (databaseId (schemasStore (mem w2)) ≠ Some (Database.id database) →
     mem w3 = mem w2).
Proof.
  intros w h w1 w2 w3 Hes.
  assert (HI : Inv w) by apply Inv_run, Inv_init.
  assert (Hmem : mem w3
    = if decide (databaseId (schemasStore (mem w2)) = Some (Database.id database))
      then with_schemasStore
             (store_insert (Schema.new database rawSchema) (schemasStore (mem w2)))
             (mem w2)
      else mem w2)
    by apply (createSchema_replied w database props es' (inr rawSchema) HI Hes).
  split; [done |]. split; [done |].
  split; intros Hid; rewrite Hmem; [by rewrite decide_True | by rewrite decide_False].
Qed.

(** C6.  [deleteSchema] issues the delete call of [schema] and leaves
    the store as it is.  When the reply to its promise [h] arrives,
    the entry under the oid of [schema] is removed from the map if the
    store is then on the database of [schema]; if it is not, nothing
    changes. *)
Theorem deleteSchema_removes_when_same_database cur es schema es' :
  let w := run (init cur) es in
  let h := length (issued (mem w)) in
  let w1 := step w (call_deleteSchema schema) in
  let w2 := run w1 es' in
  let w3 := step w2 (delete_settled h (inr ())) in
  Forall (λ e, settles h e = false) es' →
  issued (mem w1) = issued (mem w) ++ [schema_delete schema]
  ∧ schemasStore (mem w1) = schemasStore (mem w)
  ∧ (databaseId (schemasStore (mem w2))
     = Some (Database.id (Schema.database schema)) →
     mem w3
     = with_schemasStore
         {| databaseId := databaseId (schemasStore (mem w2));
            requestStatus := requestStatus (schemasStore (mem w2));
            data := delete (Schema.oid schema) (data (schemasStore (mem w2))) |}
         (mem w2))
  ∧ (databaseId (schemasStore (mem w2))
     ≠ Some (Database.id (Schema.database schema)) →
     mem w3 = mem w2).
Proof.
  intros w h w1 w2 w3 Hes.
  assert (HI : Inv w) by apply Inv_run, Inv_init.
  assert (Hmem : mem w3
    = if decide (databaseId (schemasStore (mem w2))
                 = Some (Database.id (Schema.database schema)))
      then with_schemasStore (store_delete schema (schemasStore (mem w2))) (mem w2)
      else mem w2)
    by apply (deleteSchema_replied w schema es' (inr ()) HI Hes).
  split; [done |]. split; [done |].
  split; intros Hid; rewrite Hmem; [by rewrite decide_True | by rewrite decide_False].
Qed.

(** C7.  The server gives a new schema an oid of its own: one that is
    not yet a key of the map (or the store is on another database and
    is left alone).  Then [createSchema], answered on the promise [h]
    of its add call, puts the schema in the store, if the store is on
    [database]; and [deleteSchema] of that schema, answered on the
    promise [h'] of its delete call, gives back the store there was
    before the create. *)
Theorem create_then_delete_restores_store cur es database props rawSchema :
  let w := run (init cur) es in
  let h := length (issued (mem w)) in
  let created := run w [call_createSchema database props;
                        add_settled h (inr rawSchema)] in
  let h' := length (issued (mem created)) in
  let deleted := run created [call_deleteSchema (Schema.new database rawSchema);
                              delete_settled h' (inr ())] in
  databaseId (schemasStore (mem w)) ≠ Some (Database.id database)
  ∨ data (schemasStore (mem w)) !! RawSchema.oid rawSchema = None →
  (databaseId (schemasStore (mem w)) = Some (Database.id database) →
   data (schemasStore (mem created)) !! RawSchema.oid rawSchema
   = Some (Schema.new database rawSchema))
  ∧ schemasStore (mem deleted) = schemasStore (mem w).
Proof.
  intros w h created h' deleted Hfresh.
  assert (HI : Inv w) by apply Inv_run, Inv_init.
  destruct (createSchema_answered w database props rawSchema HI)
    as (HIc & Hlen & Hcreated).
  fold h created in HIc, Hlen, Hcreated.
  destruct (deleteSchema_answered created (Schema.new database rawSchema) HIc)
    as (_ & _ & Hdeleted).
  fold h' deleted in Hdeleted. simpl in Hdeleted.
  destruct (decide (databaseId (schemasStore (mem w))
                    = Some (Database.id database))) as [Hid | Hid].
  - assert (databaseId (schemasStore (mem created)) = Some (Database.id database))
      as Hidc by by rewrite Hcreated.
    rewrite decide_True in Hdeleted by done.
    rewrite Hdeleted, Hcreated. split; [intros _; apply lookup_insert_eq |].
    destruct Hfresh as [Hne | Hnone]; [done |].
    destruct (schemasStore (mem w)) as [dbid st dt].
    unfold store_delete, store_insert. simpl in *. f_equal.
    by apply delete_insert_id.
  - assert (databaseId (schemasStore (mem created)) ≠ Some (Database.id database))
      as Hidc by by rewrite Hcreated.
    rewrite decide_False in Hdeleted by done.
    by rewrite Hdeleted, Hcreated.
Qed.


(** ** Beyond the claims: the store and the current schema *)

(** X1.  In every world the event loop reaches, every schema of the
    store's map sits under its own oid. *)
Theorem schemas_keyed_by_their_oid cur es oid schema :
  data (schemasStore (mem (run (init cur) es))) !! oid = Some schema →
  Schema.oid schema = oid.
Proof.
  apply (run_store_keyed (init cur) es); [apply Inv_init |].
  apply store_keyed_empty.
Qed.

(** X2.  In every world the event loop reaches, the current schema, if
    there is one, is the schema of the selected oid, that oid is not 0,
    and the schema is owned by the database the store is on.  With no
    oid selected, or oid 0, there is no current schema. *)
Theorem currentSchema_is_the_selected cur es currentSchemaId :
  let s := schemasStore (mem (run (init cur) es)) in
  (∀ schema, currentSchema currentSchemaId s = Some schema →
     currentSchemaId = Some (Schema.oid schema)
     ∧ Schema.oid schema ≠ 0%Z
     ∧ databaseId s = Some (Database.id (Schema.database schema)))
  ∧ (currentSchemaId = None ∨ currentSchemaId = Some 0%Z →
     currentSchema currentSchemaId s = None).
Proof.
  intros s. split.
  - intros schema. unfold currentSchema.
    destruct currentSchemaId as [oid|]; [| done]. case_decide as H0; [done |].
    intros Hl.
    assert (Schema.oid schema = oid) as <-.
    { apply (run_store_keyed (init cur) es); [apply Inv_init | | done].
      apply store_keyed_empty. }
    repeat split; [done |].
    exact (inv_store _ (Inv_run _ es (Inv_init cur)) _ _ Hl).
  - by intros [-> | ->].
Qed.

(** X3.  With a database [d] selected, after a call of
    [fetchSchemasForCurrentDatabase] and the reply to its promise [h]:
    selecting the oid of a returned record (the last one of that oid)
    gives the schema made of it, unless that oid is 0, which selects
    nothing; selecting an oid the reply does not list gives nothing. *)
Theorem fetched_schema_becomes_current cur es d l1 r l2 :
  let w := run (init cur) es in
  let h := length (issued (mem w)) in
  let w' := run w [call_fetchSchemasForCurrentDatabase;
                   list_settled h (inr (l1 ++ r :: l2))] in
  currentDatabase (mem w) = Some d →
  (∀ r', r' ∈ l2 → RawSchema.oid r' ≠ RawSchema.oid r) →
  currentSchema (Some (RawSchema.oid r)) (schemasStore (mem w'))
  = (if decide (RawSchema.oid r = 0%Z) then None else Some (Schema.new d r))
  ∧ ∀ oid, (∀ r', r' ∈ l1 ++ r :: l2 → RawSchema.oid r' ≠ oid) →
      currentSchema (Some oid) (schemasStore (mem w')) = None.
Proof.
  intros w h w' Hcur Hlast.
  assert (HI : Inv w) by apply Inv_run, Inv_init.
  assert (Hstore : schemasStore (mem w') = store_success d (l1 ++ r :: l2)).
  { apply (fetch_replied w d [] (inr (l1 ++ r :: l2)) HI Hcur (Forall_nil_2 _)).
    by apply (fetch_not_cancelled w d). }
  rewrite Hstore. simpl. split.
  - case_decide; [done |]. by apply schemasMap_lookup_last.
  - intros oid Hnot. case_decide; [done |].
    destruct (schemasMap d (l1 ++ r :: l2) !! oid) as [schema|] eqn:Hl; [| done].
    destruct (schemasMap_lookup_Some _ _ _ _ Hl) as (r' & Hr' & Hoid & _).
    by destruct (Hnot r' Hr').
Qed.

(** X4.  With the store on [database], after a call of [createSchema]
    and the reply [rawSchema] to its promise [h]: the new schema is
    found under its oid, every other oid holds what it held, and the
    new oid selects the new schema unless it is 0. *)
Theorem created_schema_is_in_the_store cur es database props rawSchema :
  let w := run (init cur) es in
  let h := length (issued (mem w)) in
  let w' := run w [call_createSchema database props;
                   add_settled h (inr rawSchema)] in
  databaseId (schemasStore (mem w)) = Some (Database.id database) →
  data (schemasStore (mem w')) !! RawSchema.oid rawSchema
  = Some (Schema.new database rawSchema)
  ∧ (∀ oid, oid ≠ RawSchema.oid rawSchema →
       data (schemasStore (mem w')) !! oid = data (schemasStore (mem w)) !! oid)
  ∧ currentSchema (Some (RawSchema.oid rawSchema)) (schemasStore (mem w'))
    = if decide (RawSchema.oid rawSchema = 0%Z) then None
      else Some (Schema.new database rawSchema).
Proof.
  intros w h w' Hid.
  assert (HI : Inv w) by apply Inv_run, Inv_init.
  destruct (createSchema_answered w database props rawSchema HI)
    as (_ & _ & Hstore).
  fold h w' in Hstore. rewrite decide_True in Hstore by done.
  rewrite Hstore. simpl.
  split; [apply lookup_insert_eq |].
  split; [intros oid Hne; by apply lookup_insert_ne |].
  case_decide; [done | apply lookup_insert_eq].
Qed.

(** X5.  With the store on the database of [schema], after a call of
    [deleteSchema] and the reply to its promise [h]: no entry is left
    under the oid of [schema], every other oid holds what it held, and
    that oid selects nothing.  Deleting once more, in a call of its
    own answered in turn, changes nothing, and deleting a schema whose
    oid is not in the map leaves the store as it was. *)
Theorem deleted_schema_is_gone cur es schema :
  let w := run (init cur) es in
  let h := length (issued (mem w)) in
  let w' := run w [call_deleteSchema schema; delete_settled h (inr ())] in
  let h' := length (issued (mem w')) in
  let w'' := run w' [call_deleteSchema schema; delete_settled h' (inr ())] in
  databaseId (schemasStore (mem w)) = Some (Database.id (Schema.database schema)) →
  data (schemasStore (mem w')) !! Schema.oid schema = None
  ∧ (∀ oid, oid ≠ Schema.oid schema →
       data (schemasStore (mem w')) !! oid = data (schemasStore (mem w)) !! oid)
  ∧ currentSchema (Some (Schema.oid schema)) (schemasStore (mem w')) = None
  ∧ h' = S h
  ∧ schemasStore (mem w'') = schemasStore (mem w')
  ∧ (data (schemasStore (mem w)) !! Schema.oid schema = None →
     schemasStore (mem w') = schemasStore (mem w)).
Proof.
  intros w h w' h' w'' Hid.
  assert (HI : Inv w) by apply Inv_run, Inv_init.
  destruct (deleteSchema_answered w schema HI) as (HI' & Hlen & Hstore).
  fold h w' in HI', Hlen, Hstore. rewrite decide_True in Hstore by done.
  destruct (deleteSchema_answered w' schema HI') as (_ & _ & Hstore').
  fold h' w'' in Hstore'.
  rewrite decide_True in Hstore' by by rewrite Hstore.
  rewrite Hstore', !Hstore.
  split; [apply lookup_delete_eq |].
  split; [intros oid Hne; by apply lookup_delete_ne |].
  split; [simpl; case_decide; [done | apply lookup_delete_eq] |].
  split; [done |].
  split.
  - unfold store_delete. simpl. f_equal. apply delete_id, lookup_delete_eq.
  - intros Hnone. destruct (schemasStore (mem w)) as [dbid st dt].
    unfold store_delete. simpl in *. f_equal. by apply delete_id.
Qed.

(** X6.  Whatever the reply, [createSchema] and [deleteSchema] leave
    the store's [databaseId] and status, the promise in [request], the
    cancelled promises, [preload] and the selection as they were; each
    issues its one call and no other. *)
Theorem create_delete_touch_only_the_map database props schema r_add r_delete m :
  let m1 := (answered_add r_add (run_sync (createSchema database props) m)).1 in
  let m2 := (answered_delete r_delete (run_sync (deleteSchema schema) m)).1 in
  (databaseId (schemasStore m1) = databaseId (schemasStore m)
   ∧ requestStatus (schemasStore m1) = requestStatus (schemasStore m)
   ∧ request m1 = request m ∧ cancelled m1 = cancelled m
   ∧ preload m1 = preload m ∧ currentDatabase m1 = currentDatabase m
   ∧ issued m1 = issued m ++ [api_schemas_add (Database.id database)
                                (props_name props) (props_description props)])
  ∧ (databaseId (schemasStore m2) = databaseId (schemasStore m)
     ∧ requestStatus (schemasStore m2) = requestStatus (schemasStore m)
     ∧ request m2 = request m ∧ cancelled m2 = cancelled m
     ∧ preload m2 = preload m ∧ currentDatabase m2 = currentDatabase m
     ∧ issued m2 = issued m ++ [schema_delete schema]).
Proof.
  intros m1 m2. split.
  - unfold m1. rewrite run_createSchema. unfold answered_add.
    destruct r_add as [err | rawSchema]; [done |].
    rewrite run_create_resolved. simpl. by case_decide.
  - unfold m2. rewrite run_deleteSchema. unfold answered_delete.
    destruct r_delete as [err | []]; [done |].
    rewrite run_delete_resolved. simpl. by case_decide.
Qed.

(** ** Beyond the claims: the derived store *)

(** X7.  Whatever the world, once the derived store has reacted to a
    new current database the store is on that database: its
    [databaseId] is the id of the selection, or absent with none. *)
Theorem store_follows_the_selection w cur :
  let w' := step w (set_currentDatabase cur) in
  databaseId (schemasStore (mem w')) = Database.id <$> cur
  ∧ currentDatabase (mem w') = cur.
Proof. apply store_follows_selection_aux. Qed.

(** X8.  When the current database is set to the one the store is on
    already, the derived store fetches again only if the last fetch
    failed: then, with a database [d] selected, the store goes to
    [processing] with its map kept and one list call for [d] is
    issued.  Otherwise nothing but the selection changes. *)
Theorem reselecting_refetches_only_after_failure w cur :
  databaseId (schemasStore (mem w)) = Database.id <$> cur →
  let w0 := {| mem := with_currentDatabase cur (mem w); tasks := tasks w |} in
  let w' := step w (set_currentDatabase cur) in
  ((∀ errors, requestStatus (schemasStore (mem w)) ≠ failure errors) → w' = w0)
  ∧ (∀ errors d,
       requestStatus (schemasStore (mem w)) = failure errors → cur = Some d →
       schemasStore (mem w')
       = {| databaseId := Some (Database.id d);
            requestStatus := processing;
            data := data (schemasStore (mem w)) |}
       ∧ issued (mem w') = issued (mem w) ++ [api_schemas_list (Database.id d)]
       ∧ tasks w'
         = tasks w ++ [WList (length (issued (mem w))) (fetch_resumed d)]).
Proof.
  intros Hid w0 w'. unfold w'. simpl. fold w0. unfold schemas_derived.
  rewrite decide_False by (simpl; by intros []).
  simpl. split.
  - intros Hnf. destruct (requestStatus (schemasStore (mem w))); [done | done |].
    by destruct (Hnf errors).
  - intros errors d -> ->.
    rewrite (invoke_fetch_Some w0 d eq_refl). simpl.
    rewrite schemasStore_cancel_request. unfold store_processing.
    change (schemasStore (with_currentDatabase (Some d) (mem w)))
      with (schemasStore (mem w)).
    rewrite decide_True by done. by rewrite Hid.
Qed.

(** X9.  The first time the preloaded database is selected while the
    store is not on it, the store takes the preloaded schemas with
    status [success]; no call is issued, nothing is cancelled and no
    task is left waiting. *)
Theorem preloaded_schemas_serve_the_selection w d :
  preload (mem w) = true →
  commonData_current_database = Some (Database.id d) →
  databaseId (schemasStore (mem w)) ≠ Some (Database.id d) →
  let w' := step w (set_currentDatabase (Some d)) in
  schemasStore (mem w') = store_success d commonData_schemas
  ∧ (∀ r, r ∈ commonData_schemas →
       is_Some (data (schemasStore (mem w')) !! RawSchema.oid r))
  ∧ issued (mem w') = issued (mem w)
  ∧ cancelled (mem w') = cancelled (mem w)
  ∧ tasks w' = tasks w
  ∧ preload (mem w') = false.
Proof.
  intros Hp Hcd Hne w'. unfold w'. simpl. unfold schemas_derived. simpl.
  rewrite decide_True by done. rewrite Hp, bool_decide_eq_true_2 by done. simpl.
  repeat split. apply schemasMap_is_Some.
Qed.

(** X10.  The preloaded schemas serve once: after the derived store
    has reacted to a database the store was not on, [preload] is
    false, and it is false ever after.  From then on, selecting a
    database the store is not on always issues a list call. *)
Theorem preloaded_schemas_serve_once cur es :
  let w := run (init cur) es in
  (∀ cur', databaseId (schemasStore (mem w)) ≠ Database.id <$> cur' →
     preload (mem (step w (set_currentDatabase cur'))) = false)
  ∧ (preload (mem w) = false →
     ∀ es',
       let w' := run w es' in
       preload (mem w') = false
       ∧ ∀ d, databaseId (schemasStore (mem w')) ≠ Some (Database.id d) →
           issued (mem (step w' (set_currentDatabase (Some d))))
           = issued (mem w') ++ [api_schemas_list (Database.id d)]).
Proof.
  intros w. assert (HI : Inv w) by apply Inv_run, Inv_init. split.
  - intros cur' Hne. simpl. unfold schemas_derived. simpl.
    by rewrite decide_True.
  - intros Hp es' w'.
    assert (Hp' : preload (mem w') = false) by by apply run_preload_false.
    split; [done |]. intros d Hne. simpl.
    rewrite schemas_derived_fetches; simpl; [| done | by left].
    by rewrite (invoke_fetch_Some
                  {| mem := with_currentDatabase (Some d) (mem w');
                     tasks := tasks w' |} d eq_refl).
Qed.

(** ** Beyond the claims: along every run *)

(** X11.  If the page starts on the database it was preloaded for, or
    on none, then in every world the event loop reaches every schema
    of the store is owned by the database that is selected: a reply
    for a database left behind never shows. *)
Theorem store_shows_the_selected_database cur es oid schema :
  starts_on_preloaded cur →
  let w := run (init cur) es in
  data (schemasStore (mem w)) !! oid = Some schema →
  Database.id <$> currentDatabase (mem w)
  = Some (Database.id (Schema.database schema)).
Proof.
  intros Hstart w Hl.
  assert (HI : Inv w) by apply Inv_run, Inv_init.
  assert (HS : Synced w).
  { apply Synced_run; [apply Inv_init | by apply Unspent_init | apply Synced_init]. }
  pose proof (inv_store _ HI _ _ Hl) as Hid.
  destruct HS as [[Hnone | Hsel] _]; congruence.
Qed.

(** X12.  In every world the event loop reaches, a store that says
    [processing] has exactly one list request in flight, the one whose
    promise [request] holds. *)
Theorem processing_means_a_request_in_flight cur es :
  let w := run (init cur) es in
  requestStatus (schemasStore (mem w)) = processing →
  ∃ t, in_flight w = [t] ∧ request (mem w) = Some (wait_handle t).
Proof.
  intros w Hst.
  assert (HI : Inv w) by apply Inv_run, Inv_init.
  assert (HB : Busy w).
  { apply Busy_run; [apply Inv_init |]. by intros [=]. }
  specialize (HB Hst).
  destruct (in_flight w) as [|t [|t' ts]] eqn:Hfl; [done | | done].
  exists t. split; [done |]. apply in_flight_latest; [done |].
  rewrite Hfl. by left.
Qed.

(** X13.  If the page starts on the database it was preloaded for, or
    on none, then while a list request is in flight the store says
    [processing].  When the reply to the request in flight arrives,
    whatever it is, no list request is in flight any more and the
    status is [success] or [failure]. *)
Theorem request_in_flight_shows_as_processing cur es :
  starts_on_preloaded cur →
  let w := run (init cur) es in
  (in_flight w ≠ [] → requestStatus (schemasStore (mem w)) = processing)
  ∧ ∀ t r, t ∈ in_flight w →
      let w' := step w (list_settled (wait_handle t) r) in
      in_flight w' = []
      ∧ requestStatus (schemasStore (mem w')) ≠ processing.
Proof.
  intros Hstart w.
  assert (HI : Inv w) by apply Inv_run, Inv_init. split.
  - apply (Shown_run (init cur) es);
      [apply Inv_init | by apply Unspent_init | by intros []].
  - intros t r (Ht & Hl & Hnc)%elem_of_in_flight w'.
    pose proof (inv_known _ HI t Ht) as Hk.
    destruct Hk as [h d | |]; [| done | done]. simpl in *.
    destruct (step_list_settled_live w h d r HI Ht Hnc) as (l1 & l2 & Hts & Hstep).
    unfold w'. simpl. simpl in Hstep. rewrite Hstep. split.
    + by apply (in_flight_remove_live w _ l1 (WList h (fetch_resumed d)) l2).
    + simpl. destruct r; [by rewrite requestStatus_store_failure | done].
Qed.

(** X14.  With a database [d] selected, a call of
    [fetchSchemasForCurrentDatabase] puts the store on [d] with status
    [processing], keeping the map if the store was on [d] and emptying
    it otherwise; it issues one list call for [d], holds its promise
    in [request], and leaves that request alone in flight. *)
Theorem fetch_call_starts_one_request cur es d :
  let w := run (init cur) es in
  currentDatabase (mem w) = Some d →
  let w' := step w call_fetchSchemasForCurrentDatabase in
  let s := schemasStore (mem w) in
  let s' := schemasStore (mem w') in
  databaseId s' = Some (Database.id d)
  ∧ requestStatus s' = processing
  ∧ data s' = (if decide (databaseId s = Some (Database.id d)) then data s else ∅)
  ∧ issued (mem w') = issued (mem w) ++ [api_schemas_list (Database.id d)]
  ∧ request (mem w') = Some (length (issued (mem w)))
  ∧ in_flight w' = [WList (length (issued (mem w))) (fetch_resumed d)].
Proof.
  intros w Hcur w' s s'.
  assert (HI : Inv w) by apply Inv_run, Inv_init.
  assert (Hfl := invoke_fetch_in_flight w d HI Hcur).
  unfold s', w'. simpl. rewrite (invoke_fetch_Some _ d Hcur) in *. simpl.
  rewrite schemasStore_cancel_request. fold s.
  split; [apply databaseId_store_processing |].
  split; [apply requestStatus_store_processing |].
  split; [unfold store_processing; by case_decide |].
  done.
Qed.

(** X15.  Two calls of [fetchSchemasForCurrentDatabase] in a row, a
    database [d] being selected: whichever reply comes first, the
    world ends as if the reply to the second call alone had arrived.
    If that reply is a list, the store holds it; if it is a rejection,
    the store records its message. *)
Theorem later_fetch_wins cur es d r1 r2 :
  let w := run (init cur) es in
  currentDatabase (mem w) = Some d →
  let h1 := length (issued (mem w)) in
  let w2 := run w [call_fetchSchemasForCurrentDatabase;
                   call_fetchSchemasForCurrentDatabase] in
  let w3 := step w2 (list_settled (S h1) r2) in
  run w2 [list_settled h1 r1; list_settled (S h1) r2] = w3
  ∧ run w2 [list_settled (S h1) r2; list_settled h1 r1] = w3
  ∧ (∀ rawSchemas, r2 = inr rawSchemas →
       schemasStore (mem w3) = store_success d rawSchemas)
  ∧ (∀ err, r2 = inl err →
       requestStatus (schemasStore (mem w3)) = failure [getErrorMessage err]).
Proof.
  intros w Hcur h1 w2 w3.
  assert (HI : Inv w) by apply Inv_run, Inv_init.
  set (w1 := step w call_fetchSchemasForCurrentDatabase).
  assert (HI1 : Inv w1) by by apply Inv_step.
  assert (Hw1 : w1 = {| mem := fetch_started d (mem w);
                        tasks := tasks w ++ [WList h1 (fetch_resumed d)] |})
    by apply (invoke_fetch_Some _ d Hcur).
  assert (Hcur1 : currentDatabase (mem w1) = Some d).
  { rewrite Hw1. simpl. by rewrite currentDatabase_cancel_request. }
  assert (Hlen1 : length (issued (mem w1)) = S h1).
  { rewrite Hw1. simpl. rewrite length_app. simpl. unfold h1. lia. }
  assert (Hreq1 : request (mem w1) = Some h1) by by rewrite Hw1.
  assert (Hw2 : w2 = {| mem := fetch_started d (mem w1);
                        tasks := tasks w1 ++ [WList (S h1) (fetch_resumed d)] |}).
  { change w2 with (invoke fetchSchemasForCurrentDatabase w1).
    rewrite (invoke_fetch_Some _ d Hcur1). by rewrite Hlen1. }
  assert (HI2 : Inv w2).
  { change w2 with (step w1 call_fetchSchemasForCurrentDatabase).
    by apply Inv_step. }
  assert (Hc1 : h1 ∈ cancelled (mem w2)).
  { rewrite Hw2. simpl. apply cancelled_cancel_request. by left. }
  assert (Hc2 : S h1 ∉ cancelled (mem w2)).
  { rewrite Hw2. simpl. intros [Hr | Hc]%cancelled_cancel_request.
    - rewrite Hreq1 in Hr. injection Hr. lia.
    - apply (inv_cancelled _ HI1) in Hc. lia. }
  assert (Ht2 : WList (S h1) (fetch_resumed d) ∈ tasks w2).
  { rewrite Hw2. simpl. apply elem_of_app. right. by left. }
  split; [| split].
  - change (step (step w2 (list_settled h1 r1)) (list_settled (S h1) r2) = w3).
    by rewrite (list_settled_cancelled w2 h1 r1 Hc1).
  - change (step w3 (list_settled h1 r1) = w3). apply list_settled_cancelled.
    by apply step_cancelled_mono.
  - destruct (step_list_settled_live w2 (S h1) d r2 HI2 Ht2 Hc2)
      as (l1 & l2 & _ & Hstep).
    unfold w3. rewrite Hstep. simpl. split.
    + by intros rawSchemas ->.
    + intros err ->. apply requestStatus_store_failure.
Qed.

(** X16.  In every world the event loop reaches, a reply or a
    rejection, of whatever call, issues no call, cancels nothing,
    leaves [request], [preload] and the selection as they were, and
    leaves no more tasks waiting than there were. *)
Theorem replies_start_nothing cur es e :
  (∃ h r, e = list_settled h r) ∨ (∃ h r, e = add_settled h r)
    ∨ (∃ h r, e = delete_settled h r) →
  let w := run (init cur) es in
  let w' := step w e in
  issued (mem w') = issued (mem w)
  ∧ cancelled (mem w') = cancelled (mem w)
  ∧ request (mem w') = request (mem w)
  ∧ preload (mem w') = preload (mem w)
  ∧ currentDatabase (mem w') = currentDatabase (mem w)
  ∧ length (tasks w') ≤ length (tasks w).
Proof.
  intros He w w'.
  assert (HI : Inv w) by apply Inv_run, Inv_init.
  assert (Hlen : ∀ l1 (t : Task) l2, tasks w = l1 ++ t :: l2 →
            length (l1 ++ l2) ≤ length (tasks w)).
  { intros l1 t l2 ->. rewrite !length_app. simpl. lia. }
  apply (step_cases (λ w', issued (mem w') = issued (mem w)
                           ∧ cancelled (mem w') = cancelled (mem w)
                           ∧ request (mem w') = request (mem w)
                           ∧ preload (mem w') = preload (mem w)
                           ∧ currentDatabase (mem w') = currentDatabase (mem w)
                           ∧ length (tasks w') ≤ length (tasks w))); try done.
  - intros ->. by destruct He as [(? & ? & ?) | [(? & ? & ?) | (? & ? & ?)]].
  - intros ? ? ->. by destruct He as [(? & ? & ?) | [(? & ? & ?) | (? & ? & ?)]].
  - intros ? ->. by destruct He as [(? & ? & ?) | [(? & ? & ?) | (? & ? & ?)]].
  - intros ? ->. by destruct He as [(? & ? & ?) | [(? & ? & ?) | (? & ? & ?)]].
  - intros h d r l1 l2 _ Hts _. simpl. repeat split. by eapply Hlen.
  - intros h database r l1 l2 _ Hts. simpl.
    split; [| intros rawSchema _ _]; repeat split; by eapply Hlen.
  - intros h schema r l1 l2 _ Hts. simpl.
    split; [| intros _ _]; repeat split; by eapply Hlen.
Qed.

(** X17.  In every world the event loop reaches, a store without
    [databaseId] is the empty store: no schema, status [success]; and
    no list request is in flight then.  So deselecting the database
    always ends in the empty store with nothing in flight. *)
Theorem store_on_no_database_is_empty cur es :
  let w := run (init cur) es in
  (databaseId (schemasStore (mem w)) = None →
   schemasStore (mem w) = makeEmptySchemasData ∧ in_flight w = [])
  ∧ (let w' := step w (set_currentDatabase None) in
     schemasStore (mem w') = makeEmptySchemasData ∧ in_flight w' = []).
Proof.
  intros w.
  assert (Hoff : ∀ w0 es0, w0 = run (init cur) es0 →
            databaseId (schemasStore (mem w0)) = None →
            schemasStore (mem w0) = makeEmptySchemasData ∧ in_flight w0 = []).
  { intros w0 es0 -> Hid. split.
    - revert Hid.
      apply (run_store_invariant
               (λ s, databaseId s = None → s = makeEmptySchemasData));
        [intros s s'; apply store_moves_off | apply Inv_init | done].
    - revert Hid. apply run_off_idle; [apply Inv_init | done]. }
  split; [by apply (Hoff w es) |].
  apply (Hoff _ (es ++ [set_currentDatabase None])).
  - unfold run. by rewrite foldl_snoc.
  - by destruct (store_follows_selection_aux w None).
Qed.

(** X18.  In every world the event loop reaches, a [failure] status
    carries exactly one message, and it is the message of a rejection
    of a list call: one of the events was the arrival of the rejection
    [err] for a promise [h]; before it, [h] was the promise of a list
    call issued for some database [d], the fetch that made the call
    was awaiting it and it was not cancelled; the status was [failure]
    with that message right after it, and the message is
    [getErrorMessage err]. *)
Theorem failure_carries_one_message cur es errors :
  requestStatus (schemasStore (mem (run (init cur) es))) = failure errors →
  ∃ es1 h d err es2,
    es = es1 ++ list_settled h (inl err) :: es2
    ∧ errors = [getErrorMessage err]
    ∧ let w := run (init cur) es1 in
      issued (mem w) !! h = Some (api_schemas_list (Database.id d))
      ∧ WList h (fetch_resumed d) ∈ tasks w
      ∧ (h ∉ cancelled (mem w))
      ∧ requestStatus (schemasStore (mem (step w (list_settled h (inl err)))))
        = failure errors.
Proof.
  revert errors. induction es as [|e es IH] using rev_ind; intros errors Hst;
    [done |].
  unfold run in Hst. rewrite foldl_snoc in Hst. fold (run (init cur) es) in Hst.
  destruct (step_failure _ e errors (Inv_run _ es (Inv_init cur))
              (Listed_run _ es (Inv_init cur) (Listed_init cur)) Hst)
    as [Hprev | (h & d & err & -> & Herr & Hiss & Ht & Hnc)].
  - destruct (IH _ Hprev) as (es1 & h & d & err & es2 & -> & Hrest).
    exists es1, h, d, err, (es2 ++ [e]). split; [| done].
    by rewrite <- app_assoc.
  - by exists es, h, d, err, [].
Qed.

End Schemas.

Arguments Ret {Err A} a.
Arguments Throw {Err A} err.
Arguments WList {Err A} h k.
Arguments WAdd {Err A} h k.
Arguments WDelete {Err A} h k.
Arguments Returned {Err A} a.
Arguments Raised {Err A} err.
Arguments Suspended {Err A} t.

(** ** The theorems at work

    Thrown values are messages here, and nothing was preloaded. *)

(** C3, the claim as stated fails: with the store on [library],
    [setSchemasInStore] for [movies] is applied all the same. *)
Lemma setSchemasInStore_unguarded :
  let m := mem_around library_store (Some movies) in
  databaseId (schemasStore m) ≠ Some (Database.id movies)
  ∧ schemasStore (run_sync (setSchemasInStore (Err:=string) movies [archive]) m).1
    ≠ schemasStore m.
Proof.
  intros m. split; [discriminate |].
  intros H. apply (f_equal databaseId) in H. discriminate.
Qed.

Lemma edits_guarded_by_databaseId_witness :
  let m := mem_around library_store (Some movies) in
  databaseId (schemasStore m) ≠ Some (Database.id movies)
  ∧ run_sync (create_resumed (Err:=string) movies (inr archive)) m
    = (m, Returned ()).
Proof.
  intros m.
  assert (Hne : databaseId (schemasStore m) ≠ Some (Database.id movies))
    by discriminate.
  split; [exact Hne |].
  destruct (edits_guarded_by_databaseId (Err:=string) movies
              (Schema.new movies archive) m Hne) as (_ & _ & Hcreate & _).
  apply Hcreate.
Defined.

(** [library] is selected and its schemas are being fetched; the user
    moves on to [movies]; the reply for [library] comes late. *)
Lemma one_fetch_in_flight_witness :
  let w := run (Err:=string) id None [] (init None)
             [set_currentDatabase (Some library)] in
  let t := WList 0 (fetch_resumed id library) in
  let w' := run (Err:=string) id None []
              (step id None [] w (set_currentDatabase (Some movies))) [] in
  (t ∈ tasks w ∧ is_list t = true
   ∧ databaseId (schemasStore (mem w)) ≠ Database.id <$> Some movies
   ∧ starts_on_preloaded None None)
  ∧ step id None [] w' (list_settled 0 (inr [public])) = w'.
Proof.
  intros w t w'.
  assert (Ht : t ∈ tasks w) by (by left).
  assert (Hne : databaseId (schemasStore (mem w)) ≠ Database.id <$> Some movies)
    by discriminate.
  assert (Hstart : starts_on_preloaded None None) by (by left).
  split; [by repeat split |].
  destruct (one_fetch_in_flight (Err:=string) id None []
              None [set_currentDatabase (Some library)]) as (_ & _ & Hlate).
  exact (Hlate t (Some movies) Ht eq_refl Hne (or_introl Hstart) [] (inr [public])).
Defined.

Lemma schemas_belong_to_store_database_witness :
  let s := schemasStore (mem (run (Err:=string) id None [] (init None)
             [set_currentDatabase (Some library);
              list_settled 0 (inr [public; archive])])) in
  (requestStatus s = success
   ∧ data s !! 2200%Z = Some (Schema.new library public))
  ∧ databaseId s = Some (Database.id (Schema.database (Schema.new library public))).
Proof.
  intros s. split; [by split |].
  exact (schemas_belong_to_store_database (Err:=string) id None [] None
           [set_currentDatabase (Some library);
            list_settled 0 (inr [public; archive])]
           (or_introl eq_refl) 2200%Z (Schema.new library public) eq_refl).
Defined.

Lemma fetch_without_database_witness :
  let m := mem_around library_store None in
  currentDatabase m = None
  ∧ ∃ m',
      run_sync (fetchSchemasForCurrentDatabase (Err:=string) id) m
      = (m', Returned ())
      ∧ schemasStore m'
        = {| databaseId := None; requestStatus := success; data := ∅ |}.
Proof.
  intros m. split; [reflexivity |].
  destruct (proj1 (fetch_without_database (Err:=string) id None []) m eq_refl)
    as (m' & Hrun & Hstore & _).
  exists m'. split; [exact Hrun | exact Hstore].
Defined.



(** With the store on [library], [archive] is being created when the
    caller fetches again; the reply to the add call then puts
    [archive] in the store. *)
Lemma createSchema_inserts_when_same_database_witness :
  let w := run (Err:=string) id None [] (init None)
             [set_currentDatabase (Some library);
              list_settled 0 (inr [public])] in
  let props := {| props_name := "archive"; props_description := Some "old loans" |} in
  let es' := [call_fetchSchemasForCurrentDatabase] in
  let w2 := run (Err:=string) id None []
              (step id None [] w (call_createSchema library props)) es' in
  let w3 := step id None [] w2 (add_settled 1 (inr archive)) in
  (Forall (λ e, settles 1 e = false) es'
   ∧ databaseId (schemasStore (mem w2)) = Some (Database.id library))
  ∧ data (schemasStore (mem w3))
    = <[2201%Z := Schema.new library archive]> (data (schemasStore (mem w2))).
Proof.
  intros w props es' w2 w3.
  assert (Hes : Forall (λ e, settles (Err:=string) 1 e = false) es')
    by (by repeat constructor).
  assert (Hid : databaseId (schemasStore (mem w2)) = Some (Database.id library))
    by reflexivity.
  split; [by split |].
  destruct (createSchema_inserts_when_same_database (Err:=string) id None [] None
              [set_currentDatabase (Some library); list_settled 0 (inr [public])]
              library props es' archive Hes) as (_ & _ & Hins & _).
  exact (f_equal (λ m, data (schemasStore m)) (Hins Hid)).
Defined.

(** With the store on [library], [archive] is being deleted when
    another schema is asked for; the reply to the delete call then
    removes [archive] from the store. *)
Lemma deleteSchema_removes_when_same_database_witness :
  let w := run (Err:=string) id None [] (init None)
             [set_currentDatabase (Some library);
              list_settled 0 (inr [public; archive])] in
  let schema := Schema.new library archive in
  let es' := [call_createSchema library
                {| props_name := "loans"; props_description := None |}] in
  let w2 := run (Err:=string) id None []
              (step id None [] w (call_deleteSchema schema)) es' in
  let w3 := step id None [] w2 (delete_settled 1 (inr ())) in
  (Forall (λ e, settles 1 e = false) es'
   ∧ databaseId (schemasStore (mem w2))
     = Some (Database.id (Schema.database schema)))
  ∧ data (schemasStore (mem w3)) = delete 2201%Z (data (schemasStore (mem w2))).
Proof.
  intros w schema es' w2 w3.
  assert (Hes : Forall (λ e, settles (Err:=string) 1 e = false) es')
    by (by repeat constructor).
  assert (Hid : databaseId (schemasStore (mem w2))
                = Some (Database.id (Schema.database schema))) by reflexivity.
  split; [by split |].
  destruct (deleteSchema_removes_when_same_database (Err:=string) id None [] None
              [set_currentDatabase (Some library);
               list_settled 0 (inr [public; archive])]
              schema es' Hes) as (_ & _ & Hdel & _).
  exact (f_equal (λ m, data (schemasStore m)) (Hdel Hid)).
Defined.

(** The store holds [public] of [library]; [archive], whose oid is
    new, is created and deleted again. *)
Lemma create_then_delete_restores_store_witness :
  let w := run (Err:=string) id None [] (init None)
             [set_currentDatabase (Some library);
              list_settled 0 (inr [public])] in
  let props := {| props_name := "archive"; props_description := Some "old loans" |} in
  let created := run (Err:=string) id None [] w
                   [call_createSchema library props; add_settled 1 (inr archive)] in
  let deleted := run (Err:=string) id None [] created
                   [call_deleteSchema (Schema.new library archive);
                    delete_settled 2 (inr ())] in
  (databaseId (schemasStore (mem w)) ≠ Some (Database.id library)
   ∨ data (schemasStore (mem w)) !! RawSchema.oid archive = None)
  ∧ data (schemasStore (mem created)) !! 2201%Z = Some (Schema.new library archive)
  ∧ schemasStore (mem deleted) = schemasStore (mem w).
Proof.
  intros w props created deleted.
  assert (Hfresh : databaseId (schemasStore (mem w)) ≠ Some (Database.id library)
                   ∨ data (schemasStore (mem w)) !! RawSchema.oid archive = None)
    by (right; reflexivity).
  split; [exact Hfresh |].
  destruct (create_then_delete_restores_store (Err:=string) id None [] None
              [set_currentDatabase (Some library); list_settled 0 (inr [public])]
              library props archive Hfresh) as [Hcreated Hdeleted].
  split; [exact (Hcreated eq_refl) | exact Hdeleted].
Defined.


(** What C4 leaves out: a page preloaded with the schemas of [movies]
    that starts on [library].  A fetch for [library] is pending when
    the user moves to [movies]; the derived store takes the preloaded
    schemas and cancels nothing; the late reply then puts the store
    back on [library]. *)
Example late_reply_after_preload :
  let w := run (Err:=string) id (Some 2%Z) [archive] (init (Some library))
             [call_fetchSchemasForCurrentDatabase;
              set_currentDatabase (Some movies);
              list_settled 0 (inr [public])] in
  currentDatabase (mem w) = Some movies
  ∧ databaseId (schemasStore (mem w)) = Some 1%Z
  ∧ data (schemasStore (mem w)) !! 2200%Z = Some (Schema.new library public).
Proof. by repeat split. Qed.

(** ** More of the module at work *)

Lemma schemas_keyed_by_their_oid_witness :
  let s := schemasStore (mem (run (Err:=string) id None [] (init None)
             [set_currentDatabase (Some library);
              list_settled 0 (inr [public; archive])])) in
  data s !! 2201%Z = Some (Schema.new library archive)
  ∧ Schema.oid (Schema.new library archive) = 2201%Z.
Proof.
  intros s. split; [reflexivity |].
  exact (schemas_keyed_by_their_oid (Err:=string) id None [] None
           [set_currentDatabase (Some library);
            list_settled 0 (inr [public; archive])]
           2201%Z (Schema.new library archive) eq_refl).
Defined.

Lemma currentSchema_is_the_selected_witness :
  let s := schemasStore (mem (run (Err:=string) id None [] (init None)
             [set_currentDatabase (Some library);
              list_settled 0 (inr [public; archive])])) in
  currentSchema (Some 2200%Z) s = Some (Schema.new library public)
  ∧ databaseId s = Some (Database.id (Schema.database (Schema.new library public))).
Proof.
  intros s. split; [reflexivity |].
  destruct (currentSchema_is_the_selected (Err:=string) id None [] None
              [set_currentDatabase (Some library);
               list_settled 0 (inr [public; archive])] (Some 2200%Z))
    as [Hsome _].
  destruct (Hsome (Schema.new library public) eq_refl) as (_ & _ & Hdb).
  exact Hdb.
Defined.

Lemma fetched_schema_becomes_current_witness :
  let w := run (Err:=string) id None [] (init None)
             [set_currentDatabase (Some library)] in
  let w' := run (Err:=string) id None [] w
              [call_fetchSchemasForCurrentDatabase;
               list_settled 1 (inr [public; archive])] in
  (currentDatabase (mem w) = Some library
   ∧ ∀ r', r' ∈ [archive] → RawSchema.oid r' ≠ RawSchema.oid public)
  ∧ currentSchema (Some 2200%Z) (schemasStore (mem w'))
    = Some (Schema.new library public).
Proof.
  intros w w'.
  assert (Hlast : ∀ r', r' ∈ [archive] → RawSchema.oid r' ≠ RawSchema.oid public).
  { intros r' ->%list_elem_of_singleton. discriminate. }
  split; [by split |].
  destruct (fetched_schema_becomes_current (Err:=string) id None [] None
              [set_currentDatabase (Some library)] library
              [] public [archive] eq_refl Hlast) as [Hcurrent _].
  exact Hcurrent.
Defined.

Lemma created_schema_is_in_the_store_witness :
  let w := run (Err:=string) id None [] (init None)
             [set_currentDatabase (Some library);
              list_settled 0 (inr [public])] in
  let props := {| props_name := "archive"; props_description := Some "old loans" |} in
  let w' := run (Err:=string) id None [] w
              [call_createSchema library props; add_settled 1 (inr archive)] in
  databaseId (schemasStore (mem w)) = Some (Database.id library)
  ∧ data (schemasStore (mem w')) !! 2201%Z = Some (Schema.new library archive)
  ∧ data (schemasStore (mem w')) !! 2200%Z = Some (Schema.new library public).
Proof.
  intros w props w'. split; [reflexivity |].
  assert (Hne : 2200%Z ≠ RawSchema.oid archive) by discriminate.
  destruct (created_schema_is_in_the_store (Err:=string) id None [] None
              [set_currentDatabase (Some library); list_settled 0 (inr [public])]
              library props archive eq_refl) as (Hnew & Hold & _).
  split; [exact Hnew | exact (Hold 2200%Z Hne)].
Defined.

Lemma deleted_schema_is_gone_witness :
  let w := run (Err:=string) id None [] (init None)
             [set_currentDatabase (Some library);
              list_settled 0 (inr [public; archive])] in
  let schema := Schema.new library public in
  let w' := run (Err:=string) id None [] w
              [call_deleteSchema schema; delete_settled 1 (inr ())] in
  databaseId (schemasStore (mem w)) = Some (Database.id (Schema.database schema))
  ∧ data (schemasStore (mem w')) !! 2200%Z = None
  ∧ data (schemasStore (mem w')) !! 2201%Z = Some (Schema.new library archive)
  ∧ currentSchema (Some 2200%Z) (schemasStore (mem w')) = None.
Proof.
  intros w schema w'. split; [reflexivity |].
  assert (Hne : 2201%Z ≠ Schema.oid schema) by discriminate.
  destruct (deleted_schema_is_gone (Err:=string) id None [] None
              [set_currentDatabase (Some library);
               list_settled 0 (inr [public; archive])] schema eq_refl)
    as (Hgone & Hothers & Hcurrent & _).
  split; [exact Hgone |]. split; [| exact Hcurrent].
  exact (Hothers 2201%Z Hne).
Defined.

Lemma reselecting_refetches_only_after_failure_witness :
  let s := {| databaseId := Some 1%Z;
              requestStatus := failure ["timed out"%string];
              data := data library_store |} in
  let w := {| mem := mem_around s (Some library); tasks := [] |} in
  let w' := step (Err:=string) id None [] w (set_currentDatabase (Some library)) in
  databaseId (schemasStore (mem w)) = Database.id <$> Some library
  ∧ requestStatus (schemasStore (mem w')) = processing
  ∧ data (schemasStore (mem w')) = data library_store
  ∧ issued (mem w') = [api_schemas_list 1].
Proof.
  intros s w w'. split; [reflexivity |].
  destruct (reselecting_refetches_only_after_failure (Err:=string) id None []
              w (Some library) eq_refl) as [_ Hretry].
  destruct (Hretry ["timed out"%string] library eq_refl eq_refl)
    as (Hstore & Hissued & _).
  split; [exact (f_equal requestStatus Hstore) |].
  split; [exact (f_equal data Hstore) | exact Hissued].
Defined.

Lemma preloaded_schemas_serve_the_selection_witness :
  let w := init (Err:=string) None in
  let w' := step id (Some 1%Z) [public; archive] w
              (set_currentDatabase (Some library)) in
  (preload (mem w) = true
   ∧ databaseId (schemasStore (mem w)) ≠ Some (Database.id library))
  ∧ data (schemasStore (mem w')) !! 2201%Z = Some (Schema.new library archive)
  ∧ issued (mem w') = [].
Proof.
  intros w w'.
  assert (Hne : databaseId (schemasStore (mem w)) ≠ Some (Database.id library))
    by discriminate.
  split; [by split |].
  destruct (preloaded_schemas_serve_the_selection (Err:=string) id (Some 1%Z)
              [public; archive] w library eq_refl eq_refl Hne)
    as (Hstore & _ & Hissued & _).
  split; [| exact Hissued].
  exact (f_equal (λ s, data s !! 2201%Z) Hstore).
Defined.

Lemma preloaded_schemas_serve_once_witness :
  let w := run (Err:=string) id (Some 1%Z) [public] (init None)
             [set_currentDatabase (Some library)] in
  let w' := run (Err:=string) id (Some 1%Z) [public] w
              [set_currentDatabase (Some movies)] in
  (preload (mem w) = false
   ∧ databaseId (schemasStore (mem w')) ≠ Some (Database.id library))
  ∧ issued (mem (step id (Some 1%Z) [public] w' (set_currentDatabase (Some library))))
    = issued (mem w') ++ [api_schemas_list 1].
Proof.
  intros w w'.
  assert (Hne : databaseId (schemasStore (mem w')) ≠ Some (Database.id library))
    by discriminate.
  split; [by split |].
  destruct (preloaded_schemas_serve_once (Err:=string) id (Some 1%Z) [public]
              None [set_currentDatabase (Some library)]) as [_ Honce].
  destruct (Honce eq_refl [set_currentDatabase (Some movies)]) as [_ Hfetch].
  exact (Hfetch library Hne).
Defined.

Lemma store_shows_the_selected_database_witness :
  let w := run (Err:=string) id None [] (init None)
             [set_currentDatabase (Some library);
              call_createSchema library
                {| props_name := "archive"; props_description := None |};
              list_settled 0 (inr [public]);
              add_settled 1 (inr archive)] in
  (starts_on_preloaded None None
   ∧ data (schemasStore (mem w)) !! 2201%Z = Some (Schema.new library archive))
  ∧ Database.id <$> currentDatabase (mem w) = Some 1%Z.
Proof.
  intros w.
  assert (Hstart : starts_on_preloaded None None) by (by left).
  split; [by split |].
  exact (store_shows_the_selected_database (Err:=string) id None [] None
           [set_currentDatabase (Some library);
            call_createSchema library
              {| props_name := "archive"; props_description := None |};
            list_settled 0 (inr [public]);
            add_settled 1 (inr archive)]
           2201%Z (Schema.new library archive) Hstart eq_refl).
Defined.

Lemma processing_means_a_request_in_flight_witness :
  let w := run (Err:=string) id None [] (init None)
             [set_currentDatabase (Some library)] in
  requestStatus (schemasStore (mem w)) = processing
  ∧ ∃ t, in_flight w = [t] ∧ request (mem w) = Some (wait_handle t).
Proof.
  intros w. split; [reflexivity |].
  exact (processing_means_a_request_in_flight (Err:=string) id None [] None
           [set_currentDatabase (Some library)] eq_refl).
Defined.

Lemma request_in_flight_shows_as_processing_witness :
  let w := run (Err:=string) id None [] (init None)
             [set_currentDatabase (Some library)] in
  let t := WList 0 (fetch_resumed id library) in
  let w' := step id None [] w (list_settled (wait_handle t) (inr [public])) in
  (starts_on_preloaded None None ∧ t ∈ in_flight w)
  ∧ in_flight w' = []
  ∧ requestStatus (schemasStore (mem w')) ≠ processing.
Proof.
  intros w t w'.
  assert (Hstart : starts_on_preloaded None None) by (by left).
  assert (Ht : t ∈ in_flight w) by (by left).
  split; [by split |].
  destruct (request_in_flight_shows_as_processing (Err:=string) id None [] None
              [set_currentDatabase (Some library)] Hstart) as [_ Hdelivered].
  exact (Hdelivered t (inr [public]) Ht).
Defined.

Lemma fetch_call_starts_one_request_witness :
  let w := run (Err:=string) id None [] (init None)
             [set_currentDatabase (Some library);
              list_settled 0 (inr [public])] in
  let w' := step id None [] w call_fetchSchemasForCurrentDatabase in
  currentDatabase (mem w) = Some library
  ∧ requestStatus (schemasStore (mem w')) = processing
  ∧ in_flight w' = [WList 1 (fetch_resumed id library)].
Proof.
  intros w w'. split; [reflexivity |].
  destruct (fetch_call_starts_one_request (Err:=string) id None [] None
              [set_currentDatabase (Some library);
               list_settled 0 (inr [public])] library eq_refl)
    as (_ & Hstatus & _ & _ & _ & Hflight).
  split; [exact Hstatus | exact Hflight].
Defined.

Lemma later_fetch_wins_witness :
  let w := run (Err:=string) id None [] (init None)
             [set_currentDatabase (Some library)] in
  let w2 := run (Err:=string) id None [] w
              [call_fetchSchemasForCurrentDatabase;
               call_fetchSchemasForCurrentDatabase] in
  currentDatabase (mem w) = Some library
  ∧ run (Err:=string) id None [] w2
      [list_settled 2 (inr [archive]); list_settled 1 (inr [public])]
    = step id None [] w2 (list_settled 2 (inr [archive])).
Proof.
  intros w w2. split; [reflexivity |].
  destruct (later_fetch_wins (Err:=string) id None [] None
              [set_currentDatabase (Some library)] library
              (inr [public]) (inr [archive]) eq_refl) as (_ & Hlate & _).
  exact Hlate.
Defined.

Lemma replies_start_nothing_witness :
  let w := run (Err:=string) id None [] (init None)
             [set_currentDatabase (Some library)] in
  let e := list_settled 0 (inr [public]) in
  let w' := step (Err:=string) id None [] w e in
  ((∃ h r, e = list_settled h r) ∨ (∃ h r, e = add_settled h r)
     ∨ (∃ h r, e = delete_settled h r))
  ∧ issued (mem w') = issued (mem w)
  ∧ length (tasks w') ≤ length (tasks w).
Proof.
  intros w e w'.
  assert (He : (∃ h r, e = list_settled h r) ∨ (∃ h r, e = add_settled h r)
                 ∨ (∃ h r, e = delete_settled h r)).
  { left. by exists 0, (inr [public]). }
  split; [exact He |].
  destruct (replies_start_nothing (Err:=string) id None [] None
              [set_currentDatabase (Some library)] e He)
    as (Hissued & _ & _ & _ & _ & Htasks).
  split; [exact Hissued | exact Htasks].
Defined.

Lemma store_on_no_database_is_empty_witness :
  let w := run (Err:=string) id None [] (init None)
             [set_currentDatabase (Some library);
              call_fetchSchemasForCurrentDatabase;
              set_currentDatabase None] in
  databaseId (schemasStore (mem w)) = None
  ∧ schemasStore (mem w) = makeEmptySchemasData
  ∧ in_flight w = [].
Proof.
  intros w. split; [reflexivity |].
  destruct (store_on_no_database_is_empty (Err:=string) id None [] None
              [set_currentDatabase (Some library);
               call_fetchSchemasForCurrentDatabase;
               set_currentDatabase None]) as [Hoff _].
  exact (Hoff eq_refl).
Defined.

Lemma failure_carries_one_message_witness :
  let es := [set_currentDatabase (Some library);
             list_settled 0 (inl "timed out"%string);
             call_createSchema library
               {| props_name := "archive"; props_description := None |}] in
  requestStatus (schemasStore (mem (run (Err:=string) id None [] (init None) es)))
  = failure ["timed out"%string]
  ∧ ∃ es1 h d err es2,
      es = es1 ++ list_settled h (inl err) :: es2
      ∧ ["timed out"%string] = [id err]
      ∧ issued (mem (run (Err:=string) id None [] (init None) es1)) !! h
        = Some (api_schemas_list (Database.id d)).
Proof.
  intros es. split; [reflexivity |].
  destruct (failure_carries_one_message (Err:=string) id None [] None es
              ["timed out"%string] eq_refl)
    as (es1 & h & d & err & es2 & Hes & Herr & Hissued & _).
  exists es1, h, d, err, es2. split; [exact Hes |]. split; [exact Herr |].
  exact Hissued.
Defined.
